(** * Redspot: the built-in ink compile pipeline and the task engine

    The first part embeds the built-in task file that registers the five
    [compile:ink] subtasks (pre-check, gather-input, invoke-compiler,
    materialize-output and the top-level task that chains them).  The second
    part embeds the task engine (builder, registry with override chaining,
    argument resolution, runner) whose interfaces are declared in
    [types/runtime.ts]. *)

From stdpp Require Import base option list strings gmap.

Open Scope string_scope.
Open Scope list_scope.

(** ** JavaScript values

    Task arguments and task results are [any] in the source; JSON documents
    read from disk are plain JavaScript values as well.  Objects are kept as
    association lists because property order is observable when a record is
    written back to disk. *)

#[local] Set Warnings "-register-all".
Inductive value : Type :=
| VUndefined
| VNull
| VBool (b : bool)
| VNum (n : Z)
| VStr (s : string)
| VArr (items : list value)
| VObj (props : list (string * value)).

(** [o.k] on an object literal: the first binding of [k], [undefined] when
    there is none. *)
Fixpoint get_prop (k : string) (props : list (string * value)) : value :=
  match props with
  | [] => VUndefined
  | (k', v) :: rest => if decide (k' = k) then v else get_prop k rest
  end.

(** [o.k = v] on an existing object: assignment keeps the position of an
    existing key and appends a new one. *)
Fixpoint set_prop (k : string) (v : value) (props : list (string * value))
  : list (string * value) :=
  match props with
  | [] => [(k, v)]
  | (k', v') :: rest =>
      if decide (k' = k) then (k, v) :: rest else (k', v') :: set_prop k v rest
  end.

(** [delete o.k]. *)
Definition delete_prop (k : string) (props : list (string * value))
  : list (string * value) :=
  filter (λ kv, kv.1 ≠ k) props.

(** ** Errors

    Everything a task can throw.  The two [RedspotError] descriptors used by
    the compile pipeline carry their message arguments ([path1] is [None]
    when the message argument is [undefined]); [TypeError] and
    [ReadJSONError] are the failures of property access and of reading a
    file; [CollaboratorError] is whatever else an external collaborator
    throws; the next four are the errors of the engine's taxonomy; the last
    four are the failures of an unset action and of the builder's add-time
    checks, which the description of the engine leaves unnamed. *)

Inductive error : Type :=
| INK_ENV_ERROR (version : string)
| INK_DUPLICATE_NAME (path1 : option string) (path2 : string)
| TypeError
| ReadJSONError (file : string)
| CollaboratorError (reason : value)
| UnrecognizedTaskError (task : string)
| MissingRequiredArgumentError (param : string)
| InvalidArgumentError (argName expectedType : string) (received : value)
| RunSuperNotDefinedError (task : string)
| NoActionSetError (task : string)
| ParamAlreadyDefinedError (param : string)
| RequiredParamAfterOptionalError (param : string)
| ParamAfterVariadicError (param : string).

(** ** The promise monad

    An [async] function is a computation over the process state that either
    returns or throws.  A throw keeps the state reached so far: JavaScript has
    no rollback. *)

Inductive outcome (A : Type) : Type :=
| Returned (a : A)
| Thrown (e : error).
Arguments Returned {A} a.
Arguments Thrown {A} e.

Definition Promise (S A : Type) : Type := S → outcome A * S.

Definition ret {S A} (a : A) : Promise S A := λ s, (Returned a, s).

Definition throw {S A} (e : error) : Promise S A := λ s, (Thrown e, s).

Definition bind {S A B} (m : Promise S A) (k : A → Promise S B) : Promise S B :=
  λ s, match m s with
       | (Returned a, s') => k a s'
       | (Thrown e, s') => (Thrown e, s')
       end.

Declare Scope promise_scope.
Delimit Scope promise_scope with promise.
Notation "'let!' x ':=' m 'in' k" := (bind m (λ x, k))
  (at level 10, x name, m at level 100, k at level 200,
   format "'[v' 'let!'  x  ':='  m  'in' '/' k ']'") : promise_scope.
Notation "'do!' m 'in' k" := (bind m (λ _, k))
  (at level 10, m at level 100, k at level 200,
   format "'[v' 'do!'  m  'in' '/' k ']'") : promise_scope.
Open Scope promise_scope.

(** ** The runtime environment ([types/runtime.ts]) *)

Record RedspotArguments : Type := {
  network : option string;
  showStackTraces : bool;
  version : bool;
  help : bool;
  config : option string;
  verbose : bool;
  logLevel : string;
  maxMemory : option Z;
  tsconfig : option string
}.

(** [RunTaskFunction]: [(name, taskArguments?) => Promise<any>].  An omitted
    [taskArguments] is [VUndefined]. *)
Definition RunTaskFunction (S : Type) : Type := string → value → Promise S value.

Module CompileInk.

(** *** The file system and the console

    A file is represented by the JSON document it holds; a path that is
    absent, or that holds no JSON, is absent from [files].  [trace] is the
    history of the effects performed, oldest first.  [io_error] is the file
    system's verdict on a directory creation or a write: given the history
    so far and the effect asked for, the error the operation fails with, if
    any (a parent directory that is missing, a file in the place of the
    directory, a full disk).  An operation that fails performs no effect. *)

Inductive io_event : Type :=
| EnsureDir (dir : string)
| ReadJSON (file : string) (content : value)
| WriteJSON (file : string) (content : value)
| ConsoleLog (line : string).

Record World : Type := {
  files : gmap string value;
  trace : list io_event;
  io_error : list io_event → io_event → option error
}.

Definition emit (ev : io_event) (w : World) : World :=
  {| files := files w; trace := trace w ++ [ev]; io_error := io_error w |}.

(** The world after [doc] has been written to [file]. *)
Definition written (file : string) (doc : value) (w : World) : World :=
  {| files := <[file := doc]> (files w);
     trace := trace w ++ [WriteJSON file doc];
     io_error := io_error w |}.

(** [fs.ensureDirSync(dir)]: throws the file system's error, if any. *)
Definition ensureDirSync (dir : string) : Promise World unit :=
  λ w, match io_error w (trace w) (EnsureDir dir) with
       | Some e => (Thrown e, w)
       | None => (Returned (), emit (EnsureDir dir) w)
       end.

(** [fs.readJSONSync(file)]: throws when the file cannot be read as JSON. *)
Definition readJSONSync (file : string) : Promise World value :=
  λ w, match files w !! file with
       | Some doc => (Returned doc, emit (ReadJSON file doc) w)
       | None => (Thrown (ReadJSONError file), w)
       end.

(** [fs.writeJSONSync(file, obj, { spaces: 2 })]: throws the file system's
    error, if any; otherwise the document is serialised at the time of the
    call, later mutations of [obj] do not reach the file. *)
Definition writeJSONSync (file : string) (obj : value) : Promise World unit :=
  λ w, match io_error w (trace w) (WriteJSON file obj) with
       | Some e => (Thrown e, w)
       | None => (Returned (), written file obj w)
       end.

(** [console.log(line)] *)
Definition console_log (line : string) : Promise World unit :=
  λ w, (Returned (), emit (ConsoleLog line) w).

(** Modelled from the spec: the declaration of [InkInput]
    ([compiler/ink/compilerInput]) is not part of the sources at hand; the
    compiler's input is "[{sources: sequence of file paths, options}]". *)
Record InkInput : Type := {
  sources : list string;
  options : value
}.

(** Modelled from the spec: the declaration of [InkOutput]
    ([compiler/ink/compile]) is not part of the sources at hand; the compiler
    returns a "sequence of [{name, contractArtifactPath}]", and the task reads
    the two fields as [target.name] and [target.contract]. *)
Record InkOutput : Type := {
  name : string;
  contract : string
}.

(** The part of [RedspotRuntimeEnvironment] that the stages destructure:
    [config.paths.artifacts] and [redspotArguments]. *)
Record StageEnv : Type := {
  config_paths_artifacts : string;
  redspotArguments : RedspotArguments
}.

(** [names.includes(x)] *)
Definition includes (names : list string) (x : string) : bool :=
  bool_decide (x ∈ names).

(** [names.indexOf(x)]: the first index holding [x], [-1] when there is
    none. *)
Fixpoint indexOf (names : list string) (x : string) : Z :=
  match names with
  | [] => -1
  | y :: rest =>
      if decide (y = x) then 0
      else let i := indexOf rest x in if decide (i = -1) then -1 else 1 + i
  end%Z.

(** [paths[i]]: [undefined] (here [None]) outside the array. *)
Definition at_index (paths : list string) (i : Z) : option string :=
  if decide (i < 0)%Z then None else paths !! Z.to_nat i.

(** [delete abiJSON.source.wasm].  Reading [.source] of [undefined] or
    [null] throws, and so does deleting a property of [undefined] or [null];
    on an object the property is removed in place; on any other value the
    statement does nothing. *)
Definition delete_source_wasm (abiJSON : value) : outcome value :=
  match abiJSON with
  | VUndefined | VNull => Thrown TypeError
  | VObj props =>
      match get_prop "source" props with
      | VUndefined | VNull => Thrown TypeError
      | VObj src =>
          Returned (VObj (set_prop "source" (VObj (delete_prop "wasm" src)) props))
      | _ => Returned abiJSON
      end
  | _ => Thrown TypeError
  end.

Section Stages.

(** External collaborators and library functions.  [checkEnv] takes the
    [version] member of its options object; [path_resolve] is [path.resolve]
    and [chalk_cyan] is [chalk.cyan].  [new_RedspotError] is what
    [throw new RedspotError(descriptor, arguments)] throws when the
    arguments are run-time values: the class is declared in
    [internal/core/errors], not among the sources at hand; its constructor
    formats the arguments into the message, so the statement throws either
    the error asked for or the constructor's own error. *)
Variable checkEnv : string → Promise World bool.
Variable compile : InkInput → bool → Promise World (list InkOutput).
Variable InkConfig : Type.
Variable getCompilerInput : InkConfig → list string → Promise World InkInput.
Variable path_resolve : string → string → string.
Variable chalk_cyan : string → string.
Variable new_RedspotError : error → error.

(** [subtask(TASK_COMPILE_INK_PRE, async (_, { config }) => ...)].  The
    argument of the error is the literal [{ version: 'v0.8.0' }]. *)
Definition TASK_COMPILE_INK_PRE_action : Promise World value :=
  let! isValidEnv := checkEnv "0.8.0" in
  if negb isValidEnv then throw (INK_ENV_ERROR "v0.8.0")
  else ret VUndefined.

(** [subtask(TASK_COMPILE_INK_INPUT) ... .setAction(...)] *)
Definition TASK_COMPILE_INK_INPUT_action
    (config_contract_ink : InkConfig) (sourcePattern : list string)
  : Promise World InkInput :=
  let! input := getCompilerInput config_contract_ink sourcePattern in
  ret input.

(** [subtask(TASK_COMPILE_INK_EXEC, async ({ input }, { redspotArguments }) => ...)].
    [None] is the [undefined] of the bare [return]. *)
Definition TASK_COMPILE_INK_EXEC_action (input : InkInput) (env : StageEnv)
  : Promise World (option (list InkOutput)) :=
  if decide (length (sources input) = 0) then ret None
  else
    let! output := compile input (verbose (redspotArguments env)) in
    ret (Some output).

Definition contract_file (env : StageEnv) (target : InkOutput) : string :=
  path_resolve (config_paths_artifacts env) (name target +:+ ".contract").

Definition json_file (env : StageEnv) (target : InkOutput) : string :=
  path_resolve (config_paths_artifacts env) (name target +:+ ".json").

(** The [for (const target of output)] loop, with the two local arrays. *)
Fixpoint output_loop (env : StageEnv) (names paths : list string)
    (output : list InkOutput) : Promise World unit :=
  match output with
  | [] => ret ()
  | target :: rest =>
      if includes names (name target) then
        throw (new_RedspotError
                 (INK_DUPLICATE_NAME
                    (at_index paths (indexOf names (name target)))
                    (contract target)))
      else
        let! abiJSON := readJSONSync (contract target) in
        do! writeJSONSync (contract_file env target) abiJSON in
        match delete_source_wasm abiJSON with
        | Thrown e => throw e
        | Returned stripped =>
            do! writeJSONSync (json_file env target) stripped in
            output_loop env (names ++ [name target])
                        (paths ++ [contract target]) rest
        end
  end.

Definition success_message (env : StageEnv) : string :=
  "🎉  Compile successfully! You can find all artifacts at "
  +:+ chalk_cyan (config_paths_artifacts env).

(** [subtask(TASK_COMPILE_INK_OUTPUT, async ({ input, output }, { config, artifacts }) => ...)] *)
Definition TASK_COMPILE_INK_OUTPUT_action
    (input : InkInput) (output : list InkOutput) (env : StageEnv)
  : Promise World value :=
  if decide (length (sources input) = 0) then ret VUndefined
  else
    do! ensureDirSync (config_paths_artifacts env) in
    do! output_loop env [] [] output in
    do! console_log "" in
    do! console_log (success_message env) in
    ret VUndefined.

End Stages.

Section TopLevel.

(** The process state seen by the runner that [env.run] is bound to. *)
Context {S : Type}.

(** The task names of [./task-names]. *)
Variables TASK_COMPILE_INK_PRE TASK_COMPILE_INK_INPUT
          TASK_COMPILE_INK_EXEC TASK_COMPILE_INK_OUTPUT : string.

(** [subtask(TASK_COMPILE_INK) ... .setAction(async ({ sourcePattern }, { run }) => ...)].
    At this level the stage results are [any]; the object literals
    [{ sourcePattern }], [{ input }] and [{ input, output }] are built as
    written. *)
Definition TASK_COMPILE_INK_action (sourcePattern : value)
    (run : RunTaskFunction S) : Promise S value :=
  do! run TASK_COMPILE_INK_PRE VUndefined in
  let! input := run TASK_COMPILE_INK_INPUT
                    (VObj [("sourcePattern", sourcePattern)]) in
  let! output := run TASK_COMPILE_INK_EXEC (VObj [("input", input)]) in
  do! run TASK_COMPILE_INK_OUTPUT
          (VObj [("input", input); ("output", output)]) in
  ret VUndefined.

End TopLevel.

(** A recording runner: it notes every call made through [run], oldest
    first, and otherwise behaves as the runner [impl] it wraps. *)
Definition RunCall : Type := string * value.

Definition recording {W : Type} (impl : RunTaskFunction W)
  : RunTaskFunction (list RunCall * W) :=
  λ task args st,
    let '(r, w') := impl task args st.2 in
    (r, (st.1 ++ [(task, args)], w')).

(** *** Vocabulary of the statements *)

(** A file system that refuses nothing. *)
Definition no_faults : list io_event → io_event → option error := λ _ _, None.

Definition empty_world : World :=
  {| files := ∅; trace := []; io_error := no_faults |}.

(** The file system obtained by replaying the writes of a history. *)
Definition replay_event (fs : gmap string value) (ev : io_event)
  : gmap string value :=
  match ev with
  | WriteJSON file doc => <[file := doc]> fs
  | _ => fs
  end.

Definition replay (fs : gmap string value) (evs : list io_event)
  : gmap string value :=
  foldl replay_event fs evs.

(** A document from which the stage can strip [source.wasm]: reading
    [.source] yields neither [undefined] nor [null]. *)
Definition has_source (doc : value) : Prop :=
  match doc with
  | VObj props =>
      get_prop "source" props ≠ VUndefined ∧ get_prop "source" props ≠ VNull
  | _ => False
  end.

(** The file that [target.contract] names holds such a document. *)
Definition readable (w : World) (target : InkOutput) : Prop :=
  ∃ doc, files w !! contract target = Some doc ∧ has_source doc.

(** [stripped] is [doc] with the member [wasm] of its [source] object
    removed, and nothing else changed.  A [source] that is not an object has
    no member to remove. *)
Definition without_wasm (doc stripped : value) : Prop :=
  match doc with
  | VObj props =>
      match get_prop "source" props with
      | VObj src =>
          ∃ props' src',
            stripped = VObj props'
            ∧ props'.*1 = props.*1
            ∧ (∀ k, k ≠ "source" → get_prop k props' = get_prop k props)
            ∧ get_prop "source" props' = VObj src'
            ∧ get_prop "wasm" src' = VUndefined
            ∧ (∀ k, k ≠ "wasm" → get_prop k src' = get_prop k src)
      | _ => stripped = doc
      end
  | _ => stripped = doc
  end.

Section Footprint.

Variable path_resolve : string → string → string.
Variable env : StageEnv.

(** The paths the output stage writes for the given compiled units: the
    two [path.resolve(config.paths.artifacts, ...)] of each unit. *)
Definition artifact_paths (output : list InkOutput) : list string :=
  output ≫= λ target,
    [contract_file path_resolve env target; json_file path_resolve env target].

(** An effect of the loop over [output]: a read of the bundle of one of the
    units or a write to one of their artifact paths. *)
Definition touches (output : list InkOutput) (ev : io_event) : Prop :=
  match ev with
  | ReadJSON file _ => file ∈ contract <$> output
  | WriteJSON file _ => file ∈ artifact_paths output
  | _ => False
  end.

(** The file system lets the stage ensure the artifact directory and write
    the artifact files of the given units, whatever happened before. *)
Definition accepts (w : World) (output : list InkOutput) : Prop :=
  ∀ h,
    io_error w h (EnsureDir (config_paths_artifacts env)) = None
    ∧ ∀ file doc, file ∈ artifact_paths output →
                  io_error w h (WriteJSON file doc) = None.

(** The world after one unit has been persisted: its bundle [doc] read,
    then written under [<name>.contract], then [stripped] written under
    [<name>.json]. *)
Definition after_unit (target : InkOutput) (doc stripped : value) (w : World)
  : World :=
  written (json_file path_resolve env target) stripped
    (written (contract_file path_resolve env target) doc
       (emit (ReadJSON (contract target) doc) w)).

(** [persisted fs output evs fs']: starting from the files [fs], [evs] is
    the history of persisting the given compiled units in order and [fs'] are
    the files it leaves.  For each unit, its contract bundle is read as it is
    on disk at that moment, and exactly two files are written into the
    artifact directory: the bundle as read under [<name>.contract] and the
    bundle without [source.wasm] under [<name>.json]. *)
Inductive persisted
  : gmap string value → list InkOutput → list io_event → gmap string value → Prop :=
| persisted_nil fs : persisted fs [] [] fs
| persisted_cons fs target doc stripped rest evs fs' :
    fs !! contract target = Some doc →
    without_wasm doc stripped →
    persisted
      (<[json_file path_resolve env target := stripped]>
         (<[contract_file path_resolve env target := doc]> fs))
      rest evs fs' →
    persisted fs (target :: rest)
      (ReadJSON (contract target) doc
       :: WriteJSON (contract_file path_resolve env target) doc
       :: WriteJSON (json_file path_resolve env target) stripped
       :: evs) fs'.

End Footprint.

(** Sample data for the concrete runs. *)
Definition sample_env : StageEnv :=
  {| config_paths_artifacts := "artifacts";
     redspotArguments :=
       {| network := None; showStackTraces := false; version := false;
          help := false; config := None; verbose := true;
          logLevel := "2"; maxMemory := None; tsconfig := None |} |}.

Definition sample_resolve (dir file : string) : string := dir +:+ "/" +:+ file.

Definition sample_input : InkInput :=
  {| sources := ["contracts/a/lib.rs"; "contracts/b/lib.rs"]; options := VNull |}.

Definition sample_bundle : value :=
  VObj [("source", VObj [("hash", VStr "0x01"); ("wasm", VStr "0x0061736d")]);
        ("spec", VObj [])].

Definition sample_bundle_stripped : value :=
  VObj [("source", VObj [("hash", VStr "0x01")]); ("spec", VObj [])].


(** Only the bundle of [a] is on disk. *)
Definition sample_world : World :=
  {| files := {[ "target/ink/a.contract" := sample_bundle ]};
     trace := [];
     io_error := no_faults |}.

(** The bundles of [a] and [b] are on disk. *)
Definition sample_world_two : World :=
  {| files := <[ "target/ink/b.contract" := sample_bundle ]>
                {[ "target/ink/a.contract" := sample_bundle ]};
     trace := [];
     io_error := no_faults |}.


(** As [sample_world], on a file system where nothing can be written under
    the artifact directory: every write fails with [refused]. *)
Definition refused : error := CollaboratorError (VStr "ENOENT").

Definition sample_world_readonly : World :=
  {| files := {[ "target/ink/a.contract" := sample_bundle ]};
     trace := [];
     io_error := λ _ ev, match ev with
                         | WriteJSON _ _ => Some refused
                         | _ => None
                         end |}.

Definition unit_a : InkOutput :=
  {| name := "a"; contract := "target/ink/a.contract" |}.

Definition unit_a_again : InkOutput :=
  {| name := "a"; contract := "target/ink/b.contract" |}.



Definition sample_compile (input : InkInput) (verbose : bool)
  : Promise World (list InkOutput) :=
  if verbose then ret [unit_a] else throw (CollaboratorError (VStr "quiet")).

End CompileInk.

Module Engine.

(** *** Argument types and parameter definitions ([types/runtime.ts]) *)

(** [ArgumentType<T>]; [parse] is present on a [CLIArgumentType<T>] only.
    Both report failure by throwing [InvalidArgumentError]. *)
Record ArgumentType : Type := {
  type_name : string;
  validate : string → value → outcome unit;
  parse : option (string → string → outcome value)
}.

(** [ParamDefinition<T>] *)
Record ParamDefinition : Type := {
  name : string;
  defaultValue : option value;
  type : ArgumentType;
  description : option string;
  isOptional : bool;
  isFlag : bool;
  isVariadic : bool
}.

(** Modelled from the spec: the catalogue of built-in argument types is not
    part of the sources at hand; "built-ins must cover at least: string,
    boolean, ...", and a flag "is always boolean-typed". *)
Definition boolean_type : ArgumentType := {|
  type_name := "boolean";
  validate := λ argName v,
    match v with
    | VBool _ => Returned ()
    | _ => Thrown (InvalidArgumentError argName "boolean" v)
    end;
  parse := Some (λ argName raw,
    if decide (raw = "true") then Returned (VBool true)
    else if decide (raw = "false") then Returned (VBool false)
    else Thrown (InvalidArgumentError argName "boolean" (VStr raw)))
|}.

(** [TaskArguments]: "a mapping from parameter name to already-typed
    value". *)
Definition TaskArguments : Type := list (string * value).

(** Modelled from the spec: the runner is not among the sources; [run(name,
    rawArgs)] looks named and flag parameters up in [rawArgs] and consumes
    positional parameters "from the positional slice".  The raw input is the
    values given by name and that slice. *)
Record RawArguments : Type := {
  named : list (string * value);
  positional : list value
}.

(** The value given under a name, if any. *)
Fixpoint lookup_named (k : string) (args : list (string * value)) : option value :=
  match args with
  | [] => None
  | (k', v) :: rest => if decide (k' = k) then Some v else lookup_named k rest
  end.

(** *** Argument resolution

    The runner's resolution code is not among the sources; the definitions of
    this part follow step 2 of the description of [run]. *)

(** Modelled from the spec: the runner's handling of named parameters is
    missing; "for each named/flag parameter not present in [rawArgs] ...".
    What the raw input supplies for a named or flag parameter is the value
    given under its name, if any. *)
Definition bind_named (ps : list ParamDefinition) (given : list (string * value))
  : list (ParamDefinition * option value) :=
  (λ p, (p, lookup_named (name p) given)) <$> ps.

(** Modelled from the spec: the runner's handling of positional parameters
    is missing; values are consumed "from the positional slice in declared
    order", and a variadic parameter takes "all remaining positional values
    into a sequence". *)
Fixpoint bind_positional (ps : list ParamDefinition) (slice : list value)
  : list (ParamDefinition * option value) :=
  match ps with
  | [] => []
  | p :: rest =>
      if isVariadic p then
        (p, match slice with [] => None | _ :: _ => Some (VArr slice) end)
          :: bind_positional rest []
      else
        match slice with
        | [] => (p, None) :: bind_positional rest []
        | v :: slice' => (p, Some v) :: bind_positional rest slice'
        end
  end.

(** Modelled from the spec: the runner's pairing of schema and raw input is
    missing.  Every parameter of a schema with what the raw input supplies
    for it, named parameters first, as step 2 lists them.  A parameter is
    absent from the raw input when it is paired with [None]. *)
Definition bindings (named_params positional_params : list ParamDefinition)
    (raw : RawArguments) : list (ParamDefinition * option value) :=
  bind_named named_params (named raw)
  ++ bind_positional positional_params (positional raw).

(** Modelled from the spec: a parameter after the default rule, that is its
    value and whether the caller supplied it (the runner's own bookkeeping is
    missing). *)
Inductive resolved : Type :=
| Supplied (v : value)
| Defaulted (v : value).

(** Modelled from the spec: the substituted default (the runner is missing);
    a parameter declared without [defaultValue] resolves to [undefined]. *)
Definition default_of (p : ParamDefinition) : value :=
  default VUndefined (defaultValue p).

(** Modelled from the spec: the runner's default rule is missing; for a
    parameter the raw input does not supply, "substitute its default if
    optional, else fail with [MissingRequiredArgumentError{name}]". *)
Fixpoint apply_defaults (bs : list (ParamDefinition * option value))
  : outcome (list (ParamDefinition * resolved)) :=
  match bs with
  | [] => Returned []
  | (p, Some v) :: rest =>
      match apply_defaults rest with
      | Returned rs => Returned ((p, Supplied v) :: rs)
      | Thrown e => Thrown e
      end
  | (p, None) :: rest =>
      if isOptional p then
        match apply_defaults rest with
        | Returned rs => Returned ((p, Defaulted (default_of p)) :: rs)
        | Thrown e => Thrown e
        end
      else Thrown (MissingRequiredArgumentError (name p))
  end.

(** Modelled from the spec: the runner's type check is missing; "run every
    parameter's [validate] (and [parse] first, if the raw value is a string
    and the type is CLI-capable)". *)
Definition check_value (p : ParamDefinition) (v : value) : outcome value :=
  match v, parse (type p) with
  | VStr raw, Some parse_string =>
      match parse_string (name p) raw with
      | Returned typed =>
          match validate (type p) (name p) typed with
          | Returned _ => Returned typed
          | Thrown e => Thrown e
          end
      | Thrown e => Thrown e
      end
  | _, _ =>
      match validate (type p) (name p) v with
      | Returned _ => Returned v
      | Thrown e => Thrown e
      end
  end.

(** Modelled from the spec: the same check over a sequence of values (the
    runner is missing), stopping at the first failure. *)
Fixpoint check_values (p : ParamDefinition) (vs : list value)
  : outcome (list value) :=
  match vs with
  | [] => Returned []
  | v :: rest =>
      match check_value p v with
      | Returned v' =>
          match check_values p rest with
          | Returned vs' => Returned (v' :: vs')
          | Thrown e => Thrown e
          end
      | Thrown e => Thrown e
      end
  end.

(** Modelled from the spec: the check of a supplied value (the runner is
    missing); the values gathered by a variadic parameter are checked one by
    one. *)
Definition check_supplied (p : ParamDefinition) (v : value) : outcome value :=
  match isVariadic p, v with
  | true, VArr items =>
      match check_values p items with
      | Returned items' => Returned (VArr items')
      | Thrown e => Thrown e
      end
  | _, _ => check_value p v
  end.

(** Modelled from the spec: the runner's validation pass is missing; "first
    validation failure aborts resolution with the underlying
    [InvalidArgumentError]".  Substituted defaults are taken as declared. *)
Fixpoint check_all (rs : list (ParamDefinition * resolved))
  : outcome TaskArguments :=
  match rs with
  | [] => Returned []
  | (p, Defaulted v) :: rest =>
      match check_all rest with
      | Returned args => Returned ((name p, v) :: args)
      | Thrown e => Thrown e
      end
  | (p, Supplied v) :: rest =>
      match check_supplied p v with
      | Returned v' =>
          match check_all rest with
          | Returned args => Returned ((name p, v') :: args)
          | Thrown e => Thrown e
          end
      | Thrown e => Thrown e
      end
  end.

(** Modelled from the spec: the runner's argument resolution is missing;
    step 2 of [run]: the default rule over every parameter, then the checks. *)
Definition resolve (named_params positional_params : list ParamDefinition)
    (raw : RawArguments) : outcome TaskArguments :=
  match apply_defaults (bindings named_params positional_params raw) with
  | Returned rs => check_all rs
  | Thrown e => Thrown e
  end.

(** The schema invariant: "once any positional parameter is optional, all
    subsequent positional parameters must also be optional". *)
Definition optional_suffix (ps : list ParamDefinition) : Prop :=
  ∀ l1 p l2, ps = l1 ++ p :: l2 → isOptional p = true →
             Forall (λ q, isOptional q = true) l2.

Section Definitions.

(** The process state and the composed runtime environment. *)
Context {S Env : Type}.

(** [RunSuperFunction<ArgT>]: a callable with an [isDefined] flag. *)
Record RunSuperFunction : Type := {
  call : option RawArguments → Promise S value;
  isDefined : bool
}.

(** [ActionType<ArgsT>] *)
Definition ActionType : Type :=
  TaskArguments → Env → RunSuperFunction → Promise S value.

(** [TaskDefinition]; its [name] and [description] carry a prefix because
    the plain names belong to [ParamDefinition].  [paramDefinitions] is the
    [ParamDefinitionsMap] in insertion order, keyed by each definition's
    [name].  The last field is
    modelled from the spec (the class implementing the interface is not
    among the sources): an override "captures the prior [{action,
    paramDefinitions, positionalParamDefinitions}] as a fixed snapshot". *)
Inductive TaskDefinition : Type := mkTaskDefinition {
  task_name : string;
  task_description : option string;
  action : ActionType;
  isSubtask : bool;
  paramDefinitions : list ParamDefinition;
  positionalParamDefinitions : list ParamDefinition;
  overridden : option TaskDefinition
}.

(** **** The builder

    Only the interface [ConfigurableTaskDefinition] is among the sources;
    the methods follow the description of the builder. *)

(** Modelled from the spec: the implementation of [setDescription] is
    missing; an "idempotent setter". *)
Definition set_description (d : TaskDefinition) (text : string) :=
  mkTaskDefinition (task_name d) (Some text) (action d) (isSubtask d)
    (paramDefinitions d) (positionalParamDefinitions d) (overridden d).

(** Modelled from the spec: the implementation of [setAction] is missing;
    "calling [setAction] twice overwrites, it does not chain". *)
Definition set_action (d : TaskDefinition) (a : ActionType) :=
  mkTaskDefinition (task_name d) (task_description d) a (isSubtask d)
    (paramDefinitions d) (positionalParamDefinitions d) (overridden d).

(** Modelled from the spec: the builder's storage of parameters is
    missing; each add method ends by "appending one [ParamDefinition]",
    here a named one. *)
Definition push_named (d : TaskDefinition) (p : ParamDefinition) :=
  mkTaskDefinition (task_name d) (task_description d) (action d) (isSubtask d)
    (paramDefinitions d ++ [p]) (positionalParamDefinitions d) (overridden d).

(** Modelled from the spec: as [push_named], for a positional parameter
    (the builder's storage of parameters is missing). *)
Definition push_positional (d : TaskDefinition) (p : ParamDefinition) :=
  mkTaskDefinition (task_name d) (task_description d) (action d) (isSubtask d)
    (paramDefinitions d) (positionalParamDefinitions d ++ [p]) (overridden d).

(** Modelled from the spec: the builder's name check is missing;
    "parameter names unique within one schema". *)
Definition has_param (d : TaskDefinition) (n : string) : bool :=
  bool_decide (n ∈ name <$> (paramDefinitions d ++ positionalParamDefinitions d)).

(** Modelled from the spec: the builder's record of optional positional
    parameters is missing; "a required positional parameter cannot follow
    an optional one". *)
Definition has_optional_positional (d : TaskDefinition) : bool :=
  existsb isOptional (positionalParamDefinitions d).

(** Modelled from the spec: the builder's record of a variadic parameter
    is missing; "at most one variadic positional parameter, and it must be
    the last positional parameter declared". *)
Definition has_variadic (d : TaskDefinition) : bool :=
  existsb isVariadic (positionalParamDefinitions d).

(** Modelled from the spec: the builder's add-time checks are missing;
    "constraints enforced at add-time, failing immediately".  The checks
    shared by the positional methods, in the order: name clash, variadic
    already declared, required after optional. *)
Definition check_positional (d : TaskDefinition) (n : string) (optional : bool)
  : option error :=
  if has_param d n then Some (ParamAlreadyDefinedError n)
  else if has_variadic d then Some (ParamAfterVariadicError n)
  else if has_optional_positional d && negb optional
       then Some (RequiredParamAfterOptionalError n)
  else None.

(** Modelled from the spec: the implementation of [addParam(name,
    description?, defaultValue?, type?, isOptional?)] is missing.  [ty] and
    [optional] are the effective type and flag of the call. *)
Definition addParam (d : TaskDefinition) (n : string) (descr : option string)
    (dflt : option value) (ty : ArgumentType) (optional : bool)
  : error + TaskDefinition :=
  if has_param d n then inl (ParamAlreadyDefinedError n)
  else inr (push_named d
         {| name := n; defaultValue := dflt; type := ty; description := descr;
            isOptional := optional; isFlag := false; isVariadic := false |}).

(** Modelled from the spec: the implementation of [addOptionalParam(name,
    description?, defaultValue?, type?)] is missing. *)
Definition addOptionalParam (d : TaskDefinition) (n : string)
    (descr : option string) (dflt : option value) (ty : ArgumentType)
  : error + TaskDefinition :=
  addParam d n descr dflt ty true.

(** Modelled from the spec: the implementation of [addFlag(name,
    description?)] is missing; flags are "always implicitly optional and
    boolean-typed, defaulting to [false]". *)
Definition addFlag (d : TaskDefinition) (n : string) (descr : option string)
  : error + TaskDefinition :=
  if has_param d n then inl (ParamAlreadyDefinedError n)
  else inr (push_named d
         {| name := n; defaultValue := Some (VBool false); type := boolean_type;
            description := descr;
            isOptional := true; isFlag := true; isVariadic := false |}).

(** Modelled from the spec: the implementation of
    [addPositionalParam(name, description?, defaultValue?, type?,
    isOptional?)] is missing; it appends the parameter unless an add-time
    check fails. *)
Definition addPositionalParam (d : TaskDefinition) (n : string)
    (descr : option string) (dflt : option value) (ty : ArgumentType)
    (optional : bool) : error + TaskDefinition :=
  match check_positional d n optional with
  | Some e => inl e
  | None => inr (push_positional d
         {| name := n; defaultValue := dflt; type := ty; description := descr;
            isOptional := optional; isFlag := false; isVariadic := false |})
  end.

(** Modelled from the spec: the implementation of
    [addOptionalPositionalParam(name, description?, defaultValue?, type?)]
    is missing. *)
Definition addOptionalPositionalParam (d : TaskDefinition) (n : string)
    (descr : option string) (dflt : option value) (ty : ArgumentType)
  : error + TaskDefinition :=
  addPositionalParam d n descr dflt ty true.

(** Modelled from the spec: the implementation of
    [addVariadicPositionalParam(name, description?, defaultValue?, type?,
    isOptional?)] is missing; the default, "if present, is a sequence". *)
Definition addVariadicPositionalParam (d : TaskDefinition) (n : string)
    (descr : option string) (dflt : option (list value)) (ty : ArgumentType)
    (optional : bool) : error + TaskDefinition :=
  match check_positional d n optional with
  | Some e => inl e
  | None => inr (push_positional d
         {| name := n; defaultValue := VArr <$> dflt; type := ty;
            description := descr;
            isOptional := optional; isFlag := false; isVariadic := true |})
  end.

(** Modelled from the spec: the implementation of
    [addOptionalVariadicPositionalParam(name, description?, defaultValue?,
    type?)] is missing. *)
Definition addOptionalVariadicPositionalParam (d : TaskDefinition) (n : string)
    (descr : option string) (dflt : option (list value)) (ty : ArgumentType)
  : error + TaskDefinition :=
  addVariadicPositionalParam d n descr dflt ty true.

(** Modelled from the spec: one call on the fluent builder (whose class is
    missing), one constructor per method of the interface. *)
Inductive BuilderCall : Type :=
| SetDescription (text : string)
| SetAction (a : ActionType)
| AddParam (n : string) (descr : option string) (dflt : option value)
           (ty : ArgumentType) (optional : bool)
| AddOptionalParam (n : string) (descr : option string) (dflt : option value)
           (ty : ArgumentType)
| AddPositionalParam (n : string) (descr : option string) (dflt : option value)
           (ty : ArgumentType) (optional : bool)
| AddOptionalPositionalParam (n : string) (descr : option string)
           (dflt : option value) (ty : ArgumentType)
| AddVariadicPositionalParam (n : string) (descr : option string)
           (dflt : option (list value)) (ty : ArgumentType) (optional : bool)
| AddOptionalVariadicPositionalParam (n : string) (descr : option string)
           (dflt : option (list value)) (ty : ArgumentType)
| AddFlag (n : string) (descr : option string).

(** Modelled from the spec: the dispatch of a builder call to its method
    (the builder class is missing). *)
Definition apply_call (d : TaskDefinition) (c : BuilderCall)
  : error + TaskDefinition :=
  match c with
  | SetDescription text => inr (set_description d text)
  | SetAction a => inr (set_action d a)
  | AddParam n descr dflt ty optional => addParam d n descr dflt ty optional
  | AddOptionalParam n descr dflt ty => addOptionalParam d n descr dflt ty
  | AddPositionalParam n descr dflt ty optional =>
      addPositionalParam d n descr dflt ty optional
  | AddOptionalPositionalParam n descr dflt ty =>
      addOptionalPositionalParam d n descr dflt ty
  | AddVariadicPositionalParam n descr dflt ty optional =>
      addVariadicPositionalParam d n descr dflt ty optional
  | AddOptionalVariadicPositionalParam n descr dflt ty =>
      addOptionalVariadicPositionalParam d n descr dflt ty
  | AddFlag n descr => addFlag d n descr
  end.

(** Modelled from the spec: fluent chaining (the builder class is
    missing); a chain of calls stops at the first one that throws. *)
Fixpoint apply_calls (d : TaskDefinition) (cs : list BuilderCall)
  : error + TaskDefinition :=
  match cs with
  | [] => inr d
  | c :: rest =>
      match apply_call d c with
      | inl e => inl e
      | inr d' => apply_calls d' rest
      end
  end.

(** **** The registry

    The registry and the entry points [task] and [subtask] are not among
    the sources; the definitions follow the description of the registry. *)

(** Modelled from the spec: the declaration surface is missing; one
    declaration is [task(name, description?, action?)] or [subtask(name,
    description?, action?)] followed by the calls made on the builder it
    returns. *)
Record Declaration : Type := {
  decl_isSubtask : bool;
  decl_name : string;
  decl_description : option string;
  decl_action : option ActionType;
  decl_calls : list BuilderCall
}.

(** Modelled from the spec: the action of a definition whose action was
    never set (the registry is missing, and the description leaves this
    action open); it throws. *)
Definition unset_action (n : string) : ActionType :=
  λ _ _ _, throw (NoActionSetError n).

(** Modelled from the spec: the creation of a definition is missing.  A
    declaration starts from "an empty schema", and from the definition
    currently registered under the name, if any, captured as "a fixed
    snapshot". *)
Definition fresh_definition (decl : Declaration)
    (reg : gmap string TaskDefinition) : TaskDefinition :=
  mkTaskDefinition (decl_name decl) (decl_description decl)
    (default (unset_action (decl_name decl)) (decl_action decl))
    (decl_isSubtask decl) [] [] (reg !! decl_name decl).

(** Modelled from the spec: the definition a declaration ends with, once
    its builder calls have run (the registry is missing). *)
Definition build (decl : Declaration) (reg : gmap string TaskDefinition)
  : error + TaskDefinition :=
  apply_calls (fresh_definition decl reg) (decl_calls decl).

(** Modelled from the spec: registration is missing; a declaration
    "replaces the stored schema and action" of its name. *)
Definition declare (reg : gmap string TaskDefinition) (decl : Declaration)
  : error + gmap string TaskDefinition :=
  match build decl reg with
  | inl e => inl e
  | inr d => inr (<[decl_name decl := d]> reg)
  end.

(** Modelled from the spec: the load phase is missing; the registry is
    "initialized empty" and "populated by plugin/task-declaration code",
    one declaration after the other. *)
Fixpoint load (reg : gmap string TaskDefinition) (decls : list Declaration)
  : error + gmap string TaskDefinition :=
  match decls with
  | [] => inr reg
  | decl :: rest =>
      match declare reg decl with
      | inl e => inl e
      | inr reg' => load reg' rest
      end
  end.

(** Two definitions that differ at most in the snapshot they captured. *)
Definition same_declared (d d' : TaskDefinition) : Prop :=
  task_name d = task_name d'
  ∧ task_description d = task_description d'
  ∧ action d = action d'
  ∧ isSubtask d = isSubtask d'
  ∧ paramDefinitions d = paramDefinitions d'
  ∧ positionalParamDefinitions d = positionalParamDefinitions d'.

(** **** The runner

    The runner is not among the sources; the definitions follow the
    description of [run]. *)

(** Modelled from the spec: the runner's resolution step is missing;
    "resolve arguments against the Task Definition's schema". *)
Definition resolve_arguments (d : TaskDefinition) (raw : RawArguments)
  : outcome TaskArguments :=
  resolve (paramDefinitions d) (positionalParamDefinitions d) raw.

(** Modelled from the spec: the construction of the delegate is missing;
    for a base definition it is "a non-defined stub", and calling it "fails
    with a no previous implementation error". *)
Definition runSuper_stub (task : string) : RunSuperFunction :=
  {| call := λ _, throw (RunSuperNotDefinedError task); isDefined := false |}.

(** Modelled from the spec: the construction of the delegate is missing;
    [runSuper] "is the snapshot captured at this Task Definition's override
    time (or a non-defined stub if this is the base definition)".  The
    snapshot is run by [run_snapshot]; called without arguments the delegate
    passes on the arguments of the running invocation. *)
Definition bind_runSuper
    (run_snapshot : TaskDefinition → RawArguments → Promise S value)
    (task : string) (snapshot : option TaskDefinition) (raw : RawArguments)
  : RunSuperFunction :=
  match snapshot with
  | None => runSuper_stub task
  | Some prev =>
      {| call := λ args, run_snapshot prev (default raw args);
         isDefined := true |}
  end.

(** Modelled from the spec: the runner is missing; steps 2 to 4 of [run]:
    resolve, then "invoke the action with [(resolvedArgs, environment,
    runSuper)]"; the action's outcome is the outcome of the run. *)
Fixpoint run_task_definition (env : Env) (d : TaskDefinition)
    (raw : RawArguments) : Promise S value :=
  match d with
  | mkTaskDefinition task _ act _ named_params positional_params snapshot =>
      match resolve named_params positional_params raw with
      | Thrown e => throw e
      | Returned args =>
          act args env
            (match snapshot with
             | None => runSuper_stub task
             | Some prev =>
                 {| call := λ a, run_task_definition env prev (default raw a);
                    isDefined := true |}
             end)
      end
  end.

(** Modelled from the spec: the delegate that a run of [d] hands to the
    action of [d] (the runner is missing). *)
Definition runSuper_of (env : Env) (d : TaskDefinition) (raw : RawArguments)
  : RunSuperFunction :=
  bind_runSuper (run_task_definition env) (task_name d) (overridden d) raw.

(** Modelled from the spec: the entry point [run(name, rawArgs)] is
    missing; "look up [name] in the Registry; fail with
    [UnrecognizedTaskError] if absent", then run the definition found. *)
Definition run (reg : gmap string TaskDefinition) (env : Env)
    (task : string) (raw : RawArguments) : Promise S value :=
  match reg !! task with
  | None => throw (UnrecognizedTaskError task)
  | Some d => run_task_definition env d raw
  end.

End Definitions.

Arguments RunSuperFunction : clear implicits.
Arguments ActionType : clear implicits.
Arguments TaskDefinition : clear implicits.
Arguments BuilderCall : clear implicits.
Arguments Declaration : clear implicits.

(** *** The [greet] scenario

    A base task [greet] with an optional parameter [name] (default
    ["world"]) that prints a greeting, and an override that prints its own
    line and then calls [runSuper()].  The process state is the console. *)

(** Modelled from the spec: the built-in [string] argument type. *)
Definition string_type : ArgumentType := {|
  type_name := "string";
  validate := λ argName v,
    match v with
    | VStr _ => Returned ()
    | _ => Thrown (InvalidArgumentError argName "string" v)
    end;
  parse := Some (λ _ raw, Returned (VStr raw))
|}.

Definition print (line : string) : Promise (list string) value :=
  λ console, (Returned VUndefined, console ++ [line]).

Definition text_of (v : option value) : string :=
  match v with
  | Some (VStr s) => s
  | _ => "undefined"
  end.

Definition greet_base : Declaration (list string) unit := {|
  decl_isSubtask := false;
  decl_name := "greet";
  decl_description := None;
  decl_action := Some (λ args _ _, print ("hello, " +:+ text_of (lookup_named "name" args)));
  decl_calls := [AddOptionalParam "name" None (Some (VStr "world")) string_type]
|}.

Definition greet_override : Declaration (list string) unit := {|
  decl_isSubtask := false;
  decl_name := "greet";
  decl_description := None;
  decl_action := None;
  decl_calls :=
    [AddOptionalParam "name" None (Some (VStr "world")) string_type;
     SetAction (λ args _ runSuper,
       do! print ("HELLO, " +:+ text_of (lookup_named "name" args) +:+ "!!") in
       call runSuper None)]
|}.

Definition no_arguments : RawArguments := {| named := []; positional := [] |}.

(** A task with one required positional parameter after a flag. *)
Definition copy_task : Declaration (list string) unit := {|
  decl_isSubtask := true;
  decl_name := "copy";
  decl_description := Some "copies a file";
  decl_action := Some (λ args _ _, print (text_of (lookup_named "file" args)));
  decl_calls :=
    [AddFlag "force" None;
     AddPositionalParam "file" None None string_type false;
     AddOptionalPositionalParam "target" None (Some (VStr "out")) string_type]
|}.

End Engine.

(** * Properties *)

(** ** The promise monad *)

Lemma bind_returned {S A B} (m : Promise S A) (k : A → Promise S B) s a s' :
  m s = (Returned a, s') → bind m k s = k a s'.
Proof. unfold bind. by intros ->. Qed.

Lemma bind_thrown {S A B} (m : Promise S A) (k : A → Promise S B) s e s' :
  m s = (Thrown e, s') → bind m k s = (Thrown e, s').
Proof. unfold bind. by intros ->. Qed.

(** ** Object properties *)

Lemma get_prop_set_prop_eq k v props : get_prop k (set_prop k v props) = v.
Proof.
  induction props as [|[k' v'] rest IH]; simpl.
  - by rewrite decide_True.
  - destruct (decide (k' = k)) as [->|Hne]; simpl.
    + by rewrite decide_True.
    + by rewrite decide_False.
Qed.

Lemma get_prop_set_prop_ne k k' v props :
  k' ≠ k → get_prop k' (set_prop k v props) = get_prop k' props.
Proof.
  intros Hne. induction props as [|[k0 v0] rest IH]; simpl.
  - by rewrite decide_False.
  - destruct (decide (k0 = k)) as [->|Hk0]; simpl.
    + by rewrite !decide_False.
    + destruct (decide (k0 = k')); [done|]. apply IH.
Qed.

Lemma set_prop_keys k v props :
  get_prop k props ≠ VUndefined → (set_prop k v props).*1 = props.*1.
Proof.
  induction props as [|[k0 v0] rest IH]; simpl; [done|].
  destruct (decide (k0 = k)) as [->|Hk0]; simpl; [done|].
  intros H. f_equal. by apply IH.
Qed.

Lemma get_prop_delete_prop_eq k props : get_prop k (delete_prop k props) = VUndefined.
Proof.
  unfold delete_prop. induction props as [|[k0 v0] rest IH]; [done|].
  destruct (decide (k0 = k)) as [->|Hk0].
  - rewrite filter_cons_False; [done|]. simpl. by intros H.
  - rewrite filter_cons_True; [|done]. simpl. by rewrite decide_False.
Qed.

Lemma get_prop_delete_prop_ne k k' props :
  k' ≠ k → get_prop k' (delete_prop k props) = get_prop k' props.
Proof.
  intros Hne. unfold delete_prop. induction props as [|[k0 v0] rest IH]; [done|].
  destruct (decide (k0 = k)) as [->|Hk0].
  - rewrite filter_cons_False; [|simpl; by intros H].
    simpl. by rewrite decide_False.
  - rewrite filter_cons_True; [|done]. simpl.
    destruct (decide (k0 = k')); [done|]. apply IH.
Qed.

Module CompileInkFacts.
Import CompileInk.

(** ** Stripping [source.wasm] *)

(** [delete abiJSON.source.wasm] goes through exactly on the documents that
    have a [source], removes that one member and leaves a document that
    still has a [source]. *)
Lemma delete_source_wasm_returns doc :
  has_source doc →
  ∃ stripped, delete_source_wasm doc = Returned stripped
              ∧ without_wasm doc stripped ∧ has_source stripped.
Proof.
  destruct doc as [| | | | | |props]; simpl; try done.
  intros [Hu Hn]. destruct (get_prop "source" props) as [| | | | | |src] eqn:Hsrc;
    try done; try (eexists; split; [done|]; simpl; rewrite Hsrc; by split).
  eexists. split; [done|]. split; simpl.
  - eexists _, _. split; [done|].
    split; [by apply set_prop_keys; rewrite Hsrc|].
    split; [intros k Hk; by apply get_prop_set_prop_ne|].
    split; [apply get_prop_set_prop_eq|].
    split; [apply get_prop_delete_prop_eq|].
    intros k Hk. by apply get_prop_delete_prop_ne.
  - by rewrite get_prop_set_prop_eq.
Qed.

Lemma delete_source_wasm_throws doc :
  ¬ has_source doc → delete_source_wasm doc = Thrown TypeError.
Proof.
  destruct doc as [| | | | | |props]; simpl; try done.
  intros H. destruct (get_prop "source" props); try done; destruct H; by split.
Qed.

(** ** Array helpers *)

Lemma includes_true names x : x ∈ names → includes names x = true.
Proof. intros H. unfold includes. by rewrite bool_decide_eq_true. Qed.

Lemma includes_false names x : x ∉ names → includes names x = false.
Proof. intros H. unfold includes. by rewrite bool_decide_eq_false. Qed.

(** [indexOf] finds the first occurrence. *)
Lemma indexOf_first (l1 l2 : list string) x :
  x ∉ l1 → indexOf (l1 ++ x :: l2) x = Z.of_nat (length l1).
Proof.
  induction l1 as [|y l1 IH]; simpl; intros Hx.
  - by rewrite decide_True.
  - apply not_elem_of_cons in Hx as [Hne Hx].
    rewrite decide_False by done. rewrite (IH Hx).
    rewrite decide_False by lia. lia.
Qed.

Lemma indexOf_absent (l : list string) x : x ∉ l → indexOf l x = (-1)%Z.
Proof.
  induction l as [|y l IH]; simpl; intros Hx; [done|].
  apply not_elem_of_cons in Hx as [Hne Hx].
  rewrite decide_False by done. rewrite (IH Hx). by rewrite decide_True.
Qed.

Lemma at_index_of_nat (paths : list string) n :
  at_index paths (Z.of_nat n) = paths !! n.
Proof.
  unfold at_index. rewrite decide_False by lia. by rewrite Nat2Z.id.
Qed.

(** Every list with a repeated name splits at its first colliding record:
    the names before it are pairwise distinct and one of them is its own. *)
Lemma first_collision (output : list InkOutput) :
  ¬ NoDup (name <$> output) →
  ∃ before dup after,
    output = before ++ dup :: after
    ∧ NoDup (name <$> before)
    ∧ name dup ∈ name <$> before.
Proof.
  induction output as [|x l IH] using rev_ind; intros Hdup.
  - destruct Hdup. constructor.
  - destruct (decide (NoDup (name <$> l))) as [Hl|Hl].
    + exists l, x, []. split; [done|]. split; [done|].
      destruct (decide (name x ∈ name <$> l)) as [|Hx]; [done|].
      destruct Hdup. rewrite fmap_app. simpl.
      apply NoDup_app. split; [done|]. split; [|apply NoDup_singleton].
      intros y Hy Hy'. apply list_elem_of_singleton in Hy'. by subst.
    + destruct (IH Hl) as (before & dup & after & -> & Hnd & Hin).
      exists before, dup, (after ++ [x]).
      split; [by rewrite <- app_assoc|]. by split.
Qed.

(** The first record that bears a given name. *)
Lemma first_with_name (before : list InkOutput) n :
  n ∈ name <$> before →
  ∃ b1 first b2,
    before = b1 ++ first :: b2 ∧ name first = n ∧ n ∉ name <$> b1.
Proof.
  induction before as [|t rest IH]; simpl; intros Hin.
  - by apply elem_of_nil in Hin.
  - destruct (decide (name t = n)) as [Heq|Hne].
    + exists [], t, rest. split; [done|]. split; [done|]. apply not_elem_of_nil.
    + apply elem_of_cons in Hin as [Heq|Hin]; [by subst|].
      destruct (IH Hin) as (b1 & first & b2 & -> & Hfirst & Hb1).
      exists (t :: b1), first, b2. split; [done|]. split; [done|].
      simpl. apply not_elem_of_cons. by split.
Qed.

(** ** The output stage *)

Section OutputStage.

Variable path_resolve : string → string → string.
Variable chalk_cyan : string → string.
Variable new_RedspotError : error → error.
Variable env : StageEnv.

(** One turn of the loop on a record whose name is new, whose bundle is
    read and stripped and whose two writes go through. *)
Lemma output_loop_step names paths target rest w doc stripped :
  name target ∉ names →
  files w !! contract target = Some doc →
  delete_source_wasm doc = Returned stripped →
  io_error w (trace w ++ [ReadJSON (contract target) doc])
    (WriteJSON (contract_file path_resolve env target) doc) = None →
  io_error w ((trace w ++ [ReadJSON (contract target) doc])
              ++ [WriteJSON (contract_file path_resolve env target) doc])
    (WriteJSON (json_file path_resolve env target) stripped) = None →
  output_loop path_resolve new_RedspotError env names paths (target :: rest) w
  = output_loop path_resolve new_RedspotError env
      (names ++ [name target]) (paths ++ [contract target]) rest
      (after_unit path_resolve env target doc stripped w).
Proof.
  intros Hnew Hdoc Hstrip Hw1 Hw2. simpl. rewrite (includes_false _ _ Hnew).
  unfold bind at 1. unfold readJSONSync. rewrite Hdoc.
  unfold bind at 1. unfold writeJSONSync at 1. simpl. rewrite Hw1, Hstrip.
  unfold bind at 1. unfold writeJSONSync at 1. simpl. by rewrite Hw2.
Qed.

(** One turn of the loop on a record whose name was seen before. *)
Lemma output_loop_collision names paths target rest w :
  name target ∈ names →
  output_loop path_resolve new_RedspotError env names paths (target :: rest) w
  = (Thrown (new_RedspotError
               (INK_DUPLICATE_NAME
                  (at_index paths (indexOf names (name target)))
                  (contract target))), w).
Proof. intros Hin. simpl. by rewrite (includes_true _ _ Hin). Qed.

Lemma trace_after_unit target doc stripped w :
  trace (after_unit path_resolve env target doc stripped w)
  = trace w ++ [ReadJSON (contract target) doc;
                WriteJSON (contract_file path_resolve env target) doc;
                WriteJSON (json_file path_resolve env target) stripped].
Proof. simpl. by rewrite <- !app_assoc. Qed.

Lemma readable_after_unit w target doc stripped t :
  has_source doc → has_source stripped → readable w t →
  readable (after_unit path_resolve env target doc stripped w) t.
Proof.
  intros Hdoc Hstripped (d & Hd & Hsrc). unfold readable. simpl.
  destruct (decide (json_file path_resolve env target = contract t)) as [->|Hj].
  { exists stripped. by rewrite lookup_insert_eq. }
  rewrite lookup_insert_ne by done.
  destruct (decide (contract_file path_resolve env target = contract t)) as [->|Hc].
  { exists doc. by rewrite lookup_insert_eq. }
  rewrite lookup_insert_ne by done. by exists d.
Qed.

Lemma artifact_paths_cons target rest :
  artifact_paths path_resolve env (target :: rest)
  = contract_file path_resolve env target
    :: json_file path_resolve env target
    :: artifact_paths path_resolve env rest.
Proof. done. Qed.

(** The loop over a run of records with fresh, pairwise distinct names,
    readable bundles and writable artifact files persists each of them and
    carries on with the rest. *)
Lemma output_loop_prefix before : ∀ names paths w,
  (∀ t, t ∈ before → name t ∉ names) →
  NoDup (name <$> before) →
  (∀ t, t ∈ before → readable w t) →
  (∀ h file doc, file ∈ artifact_paths path_resolve env before →
                 io_error w h (WriteJSON file doc) = None) →
  ∃ w' evs,
    persisted path_resolve env (files w) before evs (files w')
    ∧ trace w' = trace w ++ evs
    ∧ io_error w' = io_error w
    ∧ ∀ rest,
        output_loop path_resolve new_RedspotError env names paths (before ++ rest) w
        = output_loop path_resolve new_RedspotError env
            (names ++ (name <$> before)) (paths ++ (contract <$> before)) rest w'.
Proof.
  induction before as [|target before IH];
    intros names paths w Hfresh Hnd Hread Hacc.
  - exists w, []. split; [constructor|]. split; [by rewrite app_nil_r|].
    split; [done|]. intros rest. simpl. by rewrite !app_nil_r.
  - rewrite fmap_cons in Hnd. apply NoDup_cons in Hnd as [Hhead Hnd].
    destruct (Hread target) as (doc & Hdoc & Hsrc); [by left|].
    destruct (delete_source_wasm_returns doc Hsrc)
      as (stripped & Hstrip & Hwithout & Hsrc').
    destruct (IH (names ++ [name target]) (paths ++ [contract target])
                (after_unit path_resolve env target doc stripped w))
      as (w' & evs & Hpers & Htrace & Hio & Hloop).
    + intros t Ht Hin. apply elem_of_app in Hin as [Hin|Hin].
      * by apply (Hfresh t); [right|].
      * apply list_elem_of_singleton in Hin. apply Hhead. rewrite <- Hin.
        by apply list_elem_of_fmap_2.
    + done.
    + intros t Ht. apply readable_after_unit; [done..|]. apply Hread. by right.
    + intros h file d Hfile. simpl. apply Hacc.
      rewrite artifact_paths_cons. by do 2 right.
    + exists w', (ReadJSON (contract target) doc
                  :: WriteJSON (contract_file path_resolve env target) doc
                  :: WriteJSON (json_file path_resolve env target) stripped
                  :: evs).
      split; [by econstructor|].
      split; [by rewrite Htrace, trace_after_unit, <- app_assoc|].
      split; [done|]. intros rest.
      rewrite <- app_comm_cons.
      rewrite (output_loop_step names paths target (before ++ rest) w doc stripped).
      * rewrite Hloop. rewrite !fmap_cons. by rewrite <- !app_assoc.
      * apply Hfresh. by left.
      * done.
      * done.
      * apply Hacc. rewrite artifact_paths_cons. by left.
      * apply Hacc. rewrite artifact_paths_cons. right. by left.
Qed.

(** With sources and a directory that can be ensured, the stage runs the
    loop and then prints. *)
Lemma output_stage_enters input output w :
  sources input ≠ [] →
  io_error w (trace w) (EnsureDir (config_paths_artifacts env)) = None →
  TASK_COMPILE_INK_OUTPUT_action path_resolve chalk_cyan new_RedspotError
    input output env w
  = (do! output_loop path_resolve new_RedspotError env [] [] output in
     do! console_log "" in
     do! console_log (success_message chalk_cyan env) in
     ret VUndefined) (emit (EnsureDir (config_paths_artifacts env)) w).
Proof.
  intros Hsrc Hdir. unfold TASK_COMPILE_INK_OUTPUT_action.
  destruct (decide (length (sources input) = 0)) as [Hlen|_].
  { by apply length_zero_iff_nil in Hlen. }
  unfold bind at 1. unfold ensureDirSync. by rewrite Hdir.
Qed.

(** The stage over a run of records that it persists, up to the loop on
    what follows them. *)
Lemma output_stage_prefix input before rest w :
  sources input ≠ [] →
  NoDup (name <$> before) →
  (∀ t, t ∈ before → readable w t) →
  accepts path_resolve env w before →
  ∃ w1 evs,
    persisted path_resolve env (files w) before evs (files w1)
    ∧ trace w1 = trace w ++ [EnsureDir (config_paths_artifacts env)] ++ evs
    ∧ io_error w1 = io_error w
    ∧ TASK_COMPILE_INK_OUTPUT_action path_resolve chalk_cyan new_RedspotError
        input (before ++ rest) env w
      = (do! output_loop path_resolve new_RedspotError env
               (name <$> before) (contract <$> before) rest in
         do! console_log "" in
         do! console_log (success_message chalk_cyan env) in
         ret VUndefined) w1.
Proof.
  intros Hsrc Hnd Hread Hacc.
  destruct (output_loop_prefix before [] []
              (emit (EnsureDir (config_paths_artifacts env)) w))
    as (w1 & evs & Hpers & Htrace & Hio & Hloop).
  { intros t _. apply not_elem_of_nil. }
  { done. }
  { intros t Ht. by apply Hread. }
  { intros h file doc Hfile. simpl. by apply (Hacc h). }
  exists w1, evs. split; [done|].
  split; [by rewrite Htrace; simpl; rewrite <- app_assoc|]. split; [done|].
  rewrite output_stage_enters; [|done|apply (Hacc (trace w))].
  unfold bind at 1 3. by rewrite Hloop.
Qed.


(** The path reported for the first bearer of a name that is already in the
    loop's arrays. *)
Lemma path_of_first_bearer (seen : list InkOutput) n :
  n ∈ name <$> seen →
  ∃ b1 first b2,
    seen = b1 ++ first :: b2 ∧ name first = n ∧ (n ∉ name <$> b1)
    ∧ at_index (contract <$> seen) (indexOf (name <$> seen) n)
      = Some (contract first).
Proof.
  intros Hin.
  destruct (first_with_name seen n Hin) as (b1 & first & b2 & -> & Hfirst & Hb1).
  exists b1, first, b2. split; [done|]. split; [done|]. split; [done|].
  rewrite !fmap_app, !fmap_cons, Hfirst.
  rewrite indexOf_first by done. rewrite at_index_of_nat.
  apply list_lookup_middle. by rewrite !length_fmap.
Qed.

(** The stage on an output whose first colliding record is [dup]. *)
Lemma output_stage_collision input before dup after w :
  sources input ≠ [] →
  NoDup (name <$> before) →
  name dup ∈ name <$> before →
  (∀ t, t ∈ before → readable w t) →
  accepts path_resolve env w before →
  ∃ w' evs,
    TASK_COMPILE_INK_OUTPUT_action path_resolve chalk_cyan new_RedspotError
      input (before ++ dup :: after) env w
    = (Thrown (new_RedspotError
                 (INK_DUPLICATE_NAME
                    (at_index (contract <$> before)
                              (indexOf (name <$> before) (name dup)))
                    (contract dup))), w')
    ∧ persisted path_resolve env (files w) before evs (files w')
    ∧ trace w' = trace w ++ [EnsureDir (config_paths_artifacts env)] ++ evs.
Proof.
  intros Hsrc Hnd Hin Hread Hacc.
  destruct (output_stage_prefix input before (dup :: after) w)
    as (w1 & evs & Hpers & Htrace & _ & Hrun); [done..|].
  exists w1, evs. split; [|done]. rewrite Hrun.
  unfold bind at 1. by rewrite output_loop_collision.
Qed.


(** C4, as amended.  Let [dup] be the first record of the compiler output
    whose name already occurred, after the records [before].  When the
    artifact directory can be ensured and every record of [before] can be
    read, has a [source] member and can be written, the output stage throws
    [new RedspotError(INK_DUPLICATE_NAME, ...)] only after it has ensured the
    artifact directory and persisted, two files each, every record of
    [before], of which there is at least one; nothing is written for [dup]
    or for any later record, and nothing is printed. *)
Theorem duplicate_error_follows_earlier_writes input before dup after w :
  sources input ≠ [] →
  NoDup (name <$> before) →
  name dup ∈ name <$> before →
  (∀ t, t ∈ before → readable w t) →
  accepts path_resolve env w before →
  ∃ path1 w' evs,
    before ≠ []
    ∧ TASK_COMPILE_INK_OUTPUT_action path_resolve chalk_cyan new_RedspotError
        input (before ++ dup :: after) env w
      = (Thrown (new_RedspotError (INK_DUPLICATE_NAME path1 (contract dup))), w')
    ∧ persisted path_resolve env (files w) before evs (files w')
    ∧ trace w' = trace w ++ [EnsureDir (config_paths_artifacts env)] ++ evs.
Proof.
  intros Hsrc Hnd Hin Hread Hacc.
  destruct (output_stage_collision input before dup after w)
    as (w' & evs & Hrun & Hpers & Htrace); [done..|].
  eexists _, w', evs. split; [|by split].
  intros ->. by apply elem_of_nil in Hin.
Qed.

End OutputStage.


(** C4, the claim as stated fails.  A compiler output of two records named
    [a]: the stage throws the duplicate-name error, yet [artifacts/a.contract]
    and [artifacts/a.json], absent before, are on disk afterwards. *)
Lemma duplicate_error_leaves_written_files :
  let r := TASK_COMPILE_INK_OUTPUT_action sample_resolve id id sample_input
             [unit_a; unit_a_again] sample_env sample_world in
  r.1 = Thrown (INK_DUPLICATE_NAME (Some "target/ink/a.contract")
                                   "target/ink/b.contract")
  ∧ files sample_world !! "artifacts/a.contract" = None
  ∧ files sample_world !! "artifacts/a.json" = None
  ∧ files r.2 !! "artifacts/a.contract" = Some sample_bundle
  ∧ files r.2 !! "artifacts/a.json" = Some sample_bundle_stripped
  ∧ files r.2 ≠ files sample_world.
Proof.
  intros r.
  assert (H1 : files sample_world !! "artifacts/a.json" = None) by reflexivity.
  assert (H2 : files r.2 !! "artifacts/a.json" = Some sample_bundle_stripped)
    by (vm_compute; reflexivity).
  split; [vm_compute; reflexivity|]. split; [reflexivity|]. split; [done|].
  split; [vm_compute; reflexivity|]. split; [done|].
  intros Heq. rewrite Heq, H1 in H2. discriminate.
Qed.


(** ** The pre-check stage *)

(** C8. Whenever the toolchain check answers, the pre-check stage throws
    exactly when the answer is "invalid", the error is the ink environment
    error reporting version v0.8.0, and on a valid environment the stage
    returns normally; in both cases it adds no effect of its own. *)
Theorem pre_check_fails_iff_env_invalid
    (checkEnv : string → Promise World bool) (w w' : World) (isValidEnv : bool) :
  checkEnv "0.8.0" w = (Returned isValidEnv, w') →
  (isValidEnv = false →
     TASK_COMPILE_INK_PRE_action checkEnv w = (Thrown (INK_ENV_ERROR "v0.8.0"), w'))
  ∧ (isValidEnv = true →
     TASK_COMPILE_INK_PRE_action checkEnv w = (Returned VUndefined, w'))
  ∧ ((∃ e, (TASK_COMPILE_INK_PRE_action checkEnv w).1 = Thrown e)
     ↔ isValidEnv = false).
Proof.
  intros Hcheck.
  assert (Hrun : TASK_COMPILE_INK_PRE_action checkEnv w
                 = if negb isValidEnv
                   then (Thrown (INK_ENV_ERROR "v0.8.0"), w')
                   else (Returned VUndefined, w')).
  { unfold TASK_COMPILE_INK_PRE_action.
    rewrite (bind_returned _ _ _ _ _ Hcheck). by destruct isValidEnv. }
  rewrite Hrun. destruct isValidEnv; simpl.
  - split; [done|]. split; [done|]. split; [intros [e He]|]; done.
  - split; [done|]. split; [done|]. split; [done|]. intros _. by eexists.
Qed.

Lemma pre_check_fails_iff_env_invalid_witness :
  TASK_COMPILE_INK_PRE_action (λ _, ret false) empty_world
  = (Thrown (INK_ENV_ERROR "v0.8.0"), empty_world).
Proof.
  apply (pre_check_fails_iff_env_invalid (λ _, ret false)
           empty_world empty_world false); reflexivity.
Defined.

(** A check that itself throws is passed on unchanged. *)
Lemma pre_check_propagates (checkEnv : string → Promise World bool) w e w' :
  checkEnv "0.8.0" w = (Thrown e, w') →
  TASK_COMPILE_INK_PRE_action checkEnv w = (Thrown e, w').
Proof. intros H. by apply bind_thrown. Qed.

(** ** Empty input *)

(** C10. With an empty [sources] list the invoke-compiler stage returns
    [undefined] whatever the compiler would do, and the output stage returns
    [undefined]; neither performs any effect: no directory is ensured, no
    file is written and nothing is printed. *)
Theorem empty_sources_skip_compiler_and_output
    (compile : InkInput → bool → Promise World (list InkOutput))
    (path_resolve : string → string → string) (chalk_cyan : string → string)
    (new_RedspotError : error → error)
    (input : InkInput) (output : list InkOutput) (env : StageEnv) (w : World) :
  sources input = [] →
  TASK_COMPILE_INK_EXEC_action compile input env w = (Returned None, w)
  ∧ TASK_COMPILE_INK_OUTPUT_action path_resolve chalk_cyan new_RedspotError
      input output env w
    = (Returned VUndefined, w).
Proof.
  intros Hsrc.
  unfold TASK_COMPILE_INK_EXEC_action, TASK_COMPILE_INK_OUTPUT_action.
  rewrite Hsrc. simpl. by split.
Qed.

(** ** The top-level task *)

Section TopLevel.

Context {W : Type}.
Variables PRE INPUT EXEC OUTPUT : string.
Variable impl : RunTaskFunction W.

Lemma recording_returned task args calls w r w' :
  impl task args w = (r, w') →
  recording impl task args (calls, w) = (r, (calls ++ [(task, args)], w')).
Proof. unfold recording. simpl. by intros ->. Qed.

(** C2. When no stage throws, the top-level task makes exactly four calls
    through [run], in the order pre-check, gather-input, invoke-compiler,
    materialize-output; the result of gather-input is the [input] argument
    of the next two stages and the result of invoke-compiler is the
    [output] argument of the last. *)
Theorem compile_runs_four_stages_in_order
    (sourcePattern r0 input output r3 : value) (w w1 w2 w3 w4 : W) :
  impl PRE VUndefined w = (Returned r0, w1) →
  impl INPUT (VObj [("sourcePattern", sourcePattern)]) w1 = (Returned input, w2) →
  impl EXEC (VObj [("input", input)]) w2 = (Returned output, w3) →
  impl OUTPUT (VObj [("input", input); ("output", output)]) w3 = (Returned r3, w4) →
  TASK_COMPILE_INK_action PRE INPUT EXEC OUTPUT sourcePattern (recording impl) ([], w)
  = (Returned VUndefined,
     ([(PRE, VUndefined);
       (INPUT, VObj [("sourcePattern", sourcePattern)]);
       (EXEC, VObj [("input", input)]);
       (OUTPUT, VObj [("input", input); ("output", output)])], w4)).
Proof.
  intros H0 H1 H2 H3. unfold TASK_COMPILE_INK_action.
  rewrite (bind_returned _ _ _ _ _ (recording_returned _ _ _ _ _ _ H0)).
  rewrite (bind_returned _ _ _ _ _ (recording_returned _ _ _ _ _ _ H1)).
  rewrite (bind_returned _ _ _ _ _ (recording_returned _ _ _ _ _ _ H2)).
  rewrite (bind_returned _ _ _ _ _ (recording_returned _ _ _ _ _ _ H3)).
  reflexivity.
Qed.

(** A stage that throws ends the task: the later stages are not called. *)
Lemma compile_stops_at_failed_pre_check sourcePattern e w w1 :
  impl PRE VUndefined w = (Thrown e, w1) →
  TASK_COMPILE_INK_action PRE INPUT EXEC OUTPUT sourcePattern (recording impl) ([], w)
  = (Thrown e, ([(PRE, VUndefined)], w1)).
Proof.
  intros H0. unfold TASK_COMPILE_INK_action.
  by rewrite (bind_thrown _ _ _ _ _ (recording_returned _ _ _ _ _ _ H0)).
Qed.

End TopLevel.

Lemma empty_sources_skip_compiler_and_output_witness :
  let input := {| sources := []; options := VNull |} in
  let readonly := {| files := ∅; trace := [];
                     io_error := λ _ _, Some refused |} in
  TASK_COMPILE_INK_EXEC_action (λ _ _, throw TypeError) input sample_env readonly
  = (Returned None, readonly)
  ∧ TASK_COMPILE_INK_OUTPUT_action sample_resolve id id input
      [ {| name := "erc20"; contract := "target/ink/erc20.contract" |} ]
      sample_env readonly
    = (Returned VUndefined, readonly).
Proof.
  intros input readonly.
  apply (empty_sources_skip_compiler_and_output
           (λ _ _, throw TypeError) sample_resolve id id input
           [ {| name := "erc20"; contract := "target/ink/erc20.contract" |} ]
           sample_env readonly).
  reflexivity.
Defined.

Lemma compile_runs_four_stages_in_order_witness :
  TASK_COMPILE_INK_action "pre" "input" "exec" "output" (VArr [])
    (recording (W := nat) (λ task _ n, (Returned (VStr task), Datatypes.S n))) ([], 0)
  = (Returned VUndefined,
     ([("pre", VUndefined);
       ("input", VObj [("sourcePattern", VArr [])]);
       ("exec", VObj [("input", VStr "input")]);
       ("output", VObj [("input", VStr "input"); ("output", VStr "exec")])], 4)).
Proof.
  apply (compile_runs_four_stages_in_order "pre" "input" "exec" "output"
           (λ task _ n, (Returned (VStr task), Datatypes.S n))
           (VArr []) (VStr "pre") (VStr "input") (VStr "exec") (VStr "output")
           0 1 2 3 4); reflexivity.
Defined.

(** *** Concrete runs of the output stage *)

Ltac by_computation := eapply bool_decide_unpack; vm_compute; exact I.

Lemma sample_bundle_has_source : has_source sample_bundle.
Proof. by split. Qed.

Lemma sample_world_readable t :
  t ∈ [unit_a] → readable sample_world t.
Proof.
  intros Ht. apply list_elem_of_singleton in Ht as ->.
  exists sample_bundle. split; [reflexivity|apply sample_bundle_has_source].
Qed.

Lemma sample_sources_nonempty : sources sample_input ≠ [].
Proof. done. Qed.

Lemma sample_world_accepts output : accepts sample_resolve sample_env sample_world output.
Proof. intros h. by split. Qed.



Lemma duplicate_error_follows_earlier_writes_witness :
  ∃ path1 w' evs,
    [unit_a] ≠ []
    ∧ TASK_COMPILE_INK_OUTPUT_action sample_resolve id id sample_input
        ([unit_a] ++ unit_a_again :: []) sample_env sample_world
      = (Thrown (INK_DUPLICATE_NAME path1 (contract unit_a_again)), w')
    ∧ persisted sample_resolve sample_env (files sample_world) [unit_a] evs
        (files w')
    ∧ trace w' = trace sample_world ++ [EnsureDir "artifacts"] ++ evs.
Proof.
  apply (duplicate_error_follows_earlier_writes sample_resolve id id sample_env
           sample_input [unit_a] unit_a_again [] sample_world).
  - apply sample_sources_nonempty.
  - apply NoDup_singleton.
  - by left.
  - apply sample_world_readable.
  - apply sample_world_accepts.
Defined.

(** The stage run on the colliding sample, effect by effect. *)
Example output_stage_on_collision :
  TASK_COMPILE_INK_OUTPUT_action sample_resolve id id sample_input
    [unit_a; unit_a_again] sample_env sample_world
  = (Thrown (INK_DUPLICATE_NAME (Some "target/ink/a.contract")
                                "target/ink/b.contract"),
     {| files := <[ "artifacts/a.json" := sample_bundle_stripped ]>
                   (<[ "artifacts/a.contract" := sample_bundle ]>
                      (files sample_world));
        trace := [EnsureDir "artifacts";
                  ReadJSON "target/ink/a.contract" sample_bundle;
                  WriteJSON "artifacts/a.contract" sample_bundle;
                  WriteJSON "artifacts/a.json" sample_bundle_stripped];
        io_error := no_faults |}).
Proof. reflexivity. Qed.

End CompileInkFacts.

Module EngineFacts.
Import Engine.

Section Builder.

Context {S Env : Type}.
Implicit Types d : TaskDefinition S Env.

Lemma apply_calls_app (cs1 cs2 : list (BuilderCall S Env)) : ∀ d,
  apply_calls d (cs1 ++ cs2)
  = match apply_calls d cs1 with
    | inl e => inl e
    | inr d' => apply_calls d' cs2
    end.
Proof.
  induction cs1 as [|c cs1 IH]; simpl; intros d; [done|].
  destruct (apply_call d c); [done|]. apply IH.
Qed.

(** C7. On a builder that already holds an optional positional parameter,
    adding a required positional parameter (plain or variadic) throws at
    the add call itself: the call returns an error, namely the first of
    name clash, parameter after a variadic one, required after optional;
    a chain of calls stops there, and a declaration whose builder reaches
    that state before the call is not registered. *)
Theorem required_positional_after_optional_rejected d n descr dflt dflts ty :
  has_optional_positional d = true →
  let e := if has_param d n then ParamAlreadyDefinedError n
           else if has_variadic d then ParamAfterVariadicError n
           else RequiredParamAfterOptionalError n in
  addPositionalParam d n descr dflt ty false = inl e
  ∧ addVariadicPositionalParam d n descr dflts ty false = inl e
  ∧ (∀ rest, apply_calls d (AddPositionalParam n descr dflt ty false :: rest)
             = inl e)
  ∧ (∀ rest, apply_calls d (AddVariadicPositionalParam n descr dflts ty false :: rest)
             = inl e)
  ∧ (∀ (decl : Declaration S Env) reg before rest,
        decl_calls decl
        = before ++ AddPositionalParam n descr dflt ty false :: rest →
        apply_calls (fresh_definition decl reg) before = inr d →
        declare reg decl = inl e).
Proof.
  intros Hopt e.
  assert (Hcheck : check_positional d n false = Some e).
  { unfold check_positional, e. rewrite Hopt.
    destruct (has_param d n); [done|]. by destruct (has_variadic d). }
  assert (Hadd : addPositionalParam d n descr dflt ty false = inl e).
  { unfold addPositionalParam. by rewrite Hcheck. }
  split; [done|]. split; [unfold addVariadicPositionalParam; by rewrite Hcheck|].
  split; [intros rest; simpl; by rewrite Hadd|].
  split; [intros rest; simpl; unfold addVariadicPositionalParam; by rewrite Hcheck|].
  intros decl reg before rest Hcalls Hbefore.
  unfold declare, build. rewrite Hcalls, apply_calls_app, Hbefore. simpl.
  by rewrite Hadd.
Qed.

(** An optional positional parameter is always accepted after an optional
    one, as long as its name is new and no variadic one precedes it. *)
Lemma optional_positional_accepted d n descr dflt ty :
  has_param d n = false → has_variadic d = false →
  ∃ d', addPositionalParam d n descr dflt ty true = inr d'
        ∧ has_optional_positional d' = true.
Proof.
  intros Hn Hv. unfold addPositionalParam, check_positional.
  rewrite Hn, Hv, andb_false_r. eexists. split; [done|].
  unfold has_optional_positional. simpl. rewrite existsb_app. simpl.
  by rewrite orb_true_r.
Qed.

(** **** What a chain of builder calls never changes *)

Lemma apply_call_keeps d c d' :
  apply_call d c = inr d' →
  task_name d' = task_name d ∧ overridden d' = overridden d.
Proof.
  destruct c; simpl;
    unfold addOptionalParam, addOptionalPositionalParam,
           addOptionalVariadicPositionalParam, addParam, addFlag,
           addPositionalParam, addVariadicPositionalParam;
    repeat case_match; intros [= <-]; done.
Qed.

Lemma apply_calls_keeps cs : ∀ d d',
  apply_calls d cs = inr d' →
  task_name d' = task_name d ∧ overridden d' = overridden d.
Proof.
  induction cs as [|c cs IH]; simpl; intros d d' H.
  - by injection H as ->.
  - destruct (apply_call d c) as [e|d1] eqn:Hc; [done|].
    destruct (apply_call_keeps _ _ _ Hc) as [Hn Ho].
    destruct (IH d1 d' H) as [Hn' Ho']. split; congruence.
Qed.

(** **** The schema invariant kept by the builder *)

Lemma optional_suffix_snoc ps p :
  optional_suffix ps →
  (existsb isOptional ps = true → isOptional p = true) →
  optional_suffix (ps ++ [p]).
Proof.
  intros Hps Hp l1 q l2 Heq Hq.
  destruct l2 as [|x l2 _] using rev_ind.
  - constructor.
  - rewrite app_comm_cons, app_assoc in Heq.
    apply app_inj_tail in Heq as [-> ->].
    apply Forall_app. split; [by apply (Hps l1 q l2)|].
    constructor; [|constructor]. apply Hp.
    rewrite existsb_app. simpl. rewrite Hq. simpl. apply orb_true_r.
Qed.

Lemma apply_call_optional_suffix d c d' :
  apply_call d c = inr d' →
  optional_suffix (positionalParamDefinitions d) →
  optional_suffix (positionalParamDefinitions d').
Proof.
  destruct c; simpl;
    unfold addOptionalParam, addOptionalPositionalParam,
           addOptionalVariadicPositionalParam, addParam, addFlag,
           addPositionalParam, addVariadicPositionalParam, check_positional;
    repeat case_match; intros [= <-] Hd; simpl; try done;
    apply optional_suffix_snoc; try done; simpl;
    unfold has_optional_positional in *; intros Hex;
    repeat match goal with
           | H : existsb isOptional _ && negb ?o = false |- _ =>
               rewrite Hex in H; by destruct o
           end.
Qed.

(** Every definition that a declaration builds satisfies the invariant, so
    argument resolution never meets a required positional parameter after
    an optional one. *)
Lemma build_optional_suffix (decl : Declaration S Env) reg d :
  build decl reg = inr d →
  optional_suffix (positionalParamDefinitions d).
Proof.
  unfold build.
  assert (Hfresh : optional_suffix
                     (positionalParamDefinitions (fresh_definition decl reg))).
  { intros l1 p l2 Heq. simpl in Heq. by destruct l1. }
  revert Hfresh. generalize (fresh_definition decl reg).
  induction (decl_calls decl) as [|c cs IH]; simpl; intros d0 Hd0 H.
  - by injection H as <-.
  - destruct (apply_call d0 c) as [e|d1] eqn:Hc; [done|].
    apply (IH d1); [|done]. by apply (apply_call_optional_suffix d0 c).
Qed.

End Builder.

Section Registry.

Context {S Env : Type}.
Implicit Types d : TaskDefinition S Env.
Implicit Types reg : gmap string (TaskDefinition S Env).
Implicit Types decl : Declaration S Env.

Lemma load_app (l1 l2 : list (Declaration S Env)) : ∀ reg,
  load reg (l1 ++ l2)
  = match load reg l1 with
    | inl e => inl e
    | inr reg' => load reg' l2
    end.
Proof.
  induction l1 as [|decl l1 IH]; simpl; intros reg; [done|].
  destruct (declare reg decl); [done|]. apply IH.
Qed.

(** What a successful declaration leaves in the registry: the definition
    it built, whose snapshot is whatever the name was bound to before. *)
Lemma declare_registers reg decl reg' :
  declare reg decl = inr reg' →
  ∃ d, build decl reg = inr d
       ∧ reg' = <[decl_name decl := d]> reg
       ∧ task_name d = decl_name decl
       ∧ overridden d = reg !! decl_name decl.
Proof.
  unfold declare. destruct (build decl reg) as [e|d] eqn:Hb; [done|].
  intros [= <-]. exists d. split; [done|]. split; [done|].
  unfold build in Hb. by apply apply_calls_keeps in Hb as [-> ->].
Qed.

(** The builder never looks at the snapshot: what a declaration builds is
    the same whatever the registry held before, up to the snapshot itself. *)
Lemma apply_call_same d1 d2 c :
  same_declared d1 d2 →
  match apply_call d1 c, apply_call d2 c with
  | inr d1', inr d2' => same_declared d1' d2'
  | inl e1, inl e2 => e1 = e2
  | _, _ => False
  end.
Proof.
  destruct d1, d2. unfold same_declared. simpl.
  intros (-> & -> & -> & -> & -> & ->).
  destruct c; simpl;
    unfold addOptionalParam, addOptionalPositionalParam,
           addOptionalVariadicPositionalParam, addParam, addFlag,
           addPositionalParam, addVariadicPositionalParam, check_positional,
           has_param, has_optional_positional, has_variadic; simpl;
    repeat case_match; simplify_eq; done.
Qed.

Lemma apply_calls_same cs : ∀ d1 d2 d1' d2',
  same_declared d1 d2 →
  apply_calls d1 cs = inr d1' → apply_calls d2 cs = inr d2' →
  same_declared d1' d2'.
Proof.
  induction cs as [|c cs IH]; simpl; intros d1 d2 d1' d2' Hsame H1 H2.
  - by simplify_eq.
  - pose proof (apply_call_same d1 d2 c Hsame) as Hc.
    destruct (apply_call d1 c) as [e1|a1]; [done|].
    destruct (apply_call d2 c) as [e2|a2]; [done|].
    by apply (IH a1 a2).
Qed.

Lemma build_same decl reg1 reg2 d1 d2 :
  build decl reg1 = inr d1 → build decl reg2 = inr d2 → same_declared d1 d2.
Proof.
  unfold build. apply apply_calls_same. by repeat split.
Qed.

(** The runner on a definition: resolve against the definition's own
    schema, then invoke its action with the delegate bound to its own
    snapshot. *)
Lemma run_task_definition_unfold (env : Env) d raw :
  run_task_definition env d raw
  = match resolve_arguments d raw with
    | Thrown e => throw e
    | Returned args => action d args env (runSuper_of env d raw)
    end.
Proof. destruct d as [? ? ? ? ? ? [prev|]]; reflexivity. Qed.

(** C1. After two or more declarations of one task name, the delegate
    handed to the action of the last declaration is defined, and calling
    it runs the definition built by the declaration just before it: the
    arguments are resolved against that declaration's own schema and that
    declaration's action is invoked, with a delegate bound in turn to its
    own snapshot.  That schema and that action are the ones the declaration
    builds whatever was declared before it. *)
Theorem runSuper_runs_immediate_predecessor (env : Env)
    (earlier : list (Declaration S Env)) (prev_decl cur_decl : Declaration S Env)
    reg :
  decl_name prev_decl = decl_name cur_decl →
  load ∅ (earlier ++ [prev_decl; cur_decl]) = inr reg →
  ∃ reg0 prev cur,
    load ∅ earlier = inr reg0
    ∧ build prev_decl reg0 = inr prev
    ∧ build cur_decl (<[decl_name prev_decl := prev]> reg0) = inr cur
    ∧ reg !! decl_name cur_decl = Some cur
    ∧ overridden cur = Some prev
    ∧ (∀ raw,
        run_task_definition env cur raw
        = match resolve_arguments cur raw with
          | Thrown e => throw e
          | Returned args => action cur args env (runSuper_of env cur raw)
          end
        ∧ isDefined (runSuper_of env cur raw) = true
        ∧ ∀ a,
            call (runSuper_of env cur raw) a
            = match resolve_arguments prev (default raw a) with
              | Thrown e => throw e
              | Returned args =>
                  action prev args env (runSuper_of env prev (default raw a))
              end)
    ∧ ∀ reg' prev', build prev_decl reg' = inr prev' → same_declared prev' prev.
Proof.
  intros Hname Hload. rewrite load_app in Hload.
  destruct (load ∅ earlier) as [e|reg0]; [done|].
  simpl in Hload.
  destruct (declare reg0 prev_decl) as [e|reg1] eqn:Hprev; [done|].
  destruct (declare reg1 cur_decl) as [e|reg2] eqn:Hcur; [done|].
  injection Hload as <-.
  apply declare_registers in Hprev as (prev & Hbprev & -> & Hnprev & Hoprev).
  apply declare_registers in Hcur as (cur & Hbcur & -> & Hncur & Hocur).
  exists reg0, prev, cur. split; [done|]. split; [done|]. split; [done|].
  split; [by rewrite lookup_insert_eq|].
  assert (Hov : overridden cur = Some prev).
  { by rewrite Hocur, <- Hname, lookup_insert_eq. }
  split; [done|]. split.
  - intros raw. split; [apply run_task_definition_unfold|].
    unfold runSuper_of at 1 2. rewrite Hov. simpl.
    split; [done|]. intros a. apply run_task_definition_unfold.
  - intros reg' prev' Hb. by apply (build_same prev_decl reg' reg0).
Qed.

(** C9. The first declaration of a name yields a definition without a
    snapshot; the delegate handed to its action has [isDefined = false],
    and calling it throws the "no previous implementation" error without
    touching the state: no action runs. *)
Theorem base_runSuper_not_defined (env : Env) reg decl reg' :
  reg !! decl_name decl = None →
  declare reg decl = inr reg' →
  ∃ cur,
    reg' !! decl_name decl = Some cur
    ∧ overridden cur = None
    ∧ ∀ raw,
        run_task_definition env cur raw
        = match resolve_arguments cur raw with
          | Thrown e => throw e
          | Returned args => action cur args env (runSuper_of env cur raw)
          end
        ∧ isDefined (runSuper_of env cur raw) = false
        ∧ ∀ a s,
            call (runSuper_of env cur raw) a s
            = (Thrown (RunSuperNotDefinedError (decl_name decl)), s).
Proof.
  intros Hnew Hdecl.
  apply declare_registers in Hdecl as (cur & Hb & -> & Hn & Ho).
  exists cur. split; [by rewrite lookup_insert_eq|].
  rewrite Hnew in Ho. split; [done|]. intros raw.
  split; [apply run_task_definition_unfold|].
  unfold runSuper_of. rewrite Ho, Hn. simpl. by split.
Qed.

End Registry.

(** ** Argument resolution *)

(** Without a variadic parameter, the i-th positional parameter is paired
    with the i-th value of the positional slice. *)
Lemma bind_positional_lookup ps : ∀ slice i,
  existsb isVariadic ps = false →
  bind_positional ps slice !! i = (λ p, (p, slice !! i)) <$> ps !! i.
Proof.
  induction ps as [|p ps IH]; intros slice i Hv; [done|].
  simpl in Hv. apply orb_false_iff in Hv as [Hp Hps]. simpl. rewrite Hp.
  destruct slice as [|v slice]; destruct i as [|i]; simpl; try done.
  - rewrite IH by done. by destruct (ps !! i).
  - by apply IH.
Qed.







Section Resolution.

Context {S Env : Type}.
Implicit Types d : TaskDefinition S Env.


End Resolution.

(** ** The sample tasks *)

(** The [greet] scenario end to end: the override prints its line, then its
    delegate runs the base action with the default [name]. *)
Example greet_runs_override_then_base :
  ∃ reg, load ∅ [greet_base; greet_override] = inr reg
         ∧ run reg () "greet" no_arguments []
           = (Returned VUndefined, ["HELLO, world!!"; "hello, world"]).
Proof. eexists. split; reflexivity. Qed.

Lemma required_positional_after_optional_rejected_witness :
  ∃ d, build copy_task ∅ = inr d
       ∧ has_optional_positional d = true
       ∧ addPositionalParam d "mode" None None string_type false
         = inl (RequiredParamAfterOptionalError "mode")
       ∧ apply_calls d [AddPositionalParam "mode" None None string_type false;
                        AddFlag "verbose" None]
         = inl (RequiredParamAfterOptionalError "mode").
Proof.
  eexists. split; [reflexivity|]. split; [reflexivity|].
  match goal with
  | |- addPositionalParam ?d _ _ _ _ _ = _ ∧ _ =>
      destruct (required_positional_after_optional_rejected
                  d "mode" None None None string_type eq_refl)
        as (Hadd & _ & Hchain & _ & _)
  end.
  split; [exact Hadd|exact (Hchain _)].
Defined.

Lemma runSuper_runs_immediate_predecessor_witness :
  ∃ reg prev cur,
    load ∅ [greet_base; greet_override] = inr reg
    ∧ build greet_base ∅ = inr prev
    ∧ reg !! "greet" = Some cur
    ∧ overridden cur = Some prev
    ∧ isDefined (runSuper_of () cur no_arguments) = true
    ∧ call (runSuper_of () cur no_arguments) None []
      = (Returned VUndefined, ["hello, world"]).
Proof.
  eexists.
  destruct (runSuper_runs_immediate_predecessor () [] greet_base greet_override _
              eq_refl eq_refl)
    as (reg0 & prev & cur & Hload & Hprev & _ & Hreg & Hov & Hrun & _).
  injection Hload as <-.
  exists prev, cur. split; [reflexivity|]. split; [exact Hprev|].
  split; [exact Hreg|]. split; [exact Hov|].
  destruct (Hrun no_arguments) as (_ & Hdef & Hcall).
  split; [exact Hdef|]. rewrite Hcall.
  injection Hprev as <-. reflexivity.
Defined.

Lemma base_runSuper_not_defined_witness :
  ∃ reg cur,
    declare ∅ greet_base = inr reg
    ∧ reg !! "greet" = Some cur
    ∧ isDefined (runSuper_of () cur no_arguments) = false
    ∧ call (runSuper_of () cur no_arguments) None ["before"]
      = (Thrown (RunSuperNotDefinedError "greet"), ["before"]).
Proof.
  eexists.
  destruct (base_runSuper_not_defined () ∅ greet_base _
              (lookup_empty _) eq_refl)
    as (cur & Hreg & _ & Hrun).
  exists cur. split; [reflexivity|]. split; [exact Hreg|].
  destruct (Hrun no_arguments) as (_ & Hdef & Hcall).
  split; [exact Hdef|exact (Hcall None ["before"])].
Defined.


End EngineFacts.

(** * Further properties of the compile pipeline *)

Module CompileInkMore.
Import CompileInk CompileInkFacts.

(** ** Histories and the file system *)

Lemma replay_app fs evs1 evs2 :
  replay fs (evs1 ++ evs2) = replay (replay fs evs1) evs2.
Proof. apply foldl_app. Qed.

(** A path that no write of the history names keeps its content. *)
Lemma replay_frame evs : ∀ fs p,
  Forall (λ ev, ∀ doc, ev ≠ WriteJSON p doc) evs →
  replay fs evs !! p = fs !! p.
Proof.
  induction evs as [|ev evs IH]; intros fs p Hall; [done|].
  apply Forall_cons in Hall as [Hev Hall]. simpl.
  change (foldl replay_event (replay_event fs ev) evs)
    with (replay (replay_event fs ev) evs).
  rewrite IH by done. destruct ev as [dir|file doc|file doc|line]; try done.
  simpl. apply lookup_insert_ne. intros ->. by apply (Hev doc).
Qed.

(** The only error of [delete abiJSON.source.wasm] is a [TypeError], on a
    document without a [source]. *)
Lemma delete_source_wasm_thrown doc e :
  delete_source_wasm doc = Thrown e → e = TypeError ∧ ¬ has_source doc.
Proof.
  destruct doc as [| | | | | |props]; simpl;
    try (intros [= <-]; split; [done|tauto]).
  destruct (get_prop "source" props) eqn:Hsrc; intros [= <-];
    (split; [done|]); intros [Hu Hn]; congruence.
Qed.

Lemma delete_source_wasm_returned_inv doc stripped :
  delete_source_wasm doc = Returned stripped → has_source doc.
Proof.
  destruct doc as [| | | | | |props]; simpl; try done.
  destruct (get_prop "source" props) eqn:Hsrc; try done; intros _; by split.
Qed.

Section Loop.

Variable path_resolve : string → string → string.
Variable chalk_cyan : string → string.
Variable new_RedspotError : error → error.
Variable env : StageEnv.

Lemma touches_cons target rest ev :
  touches path_resolve env rest ev →
  touches path_resolve env (target :: rest) ev.
Proof.
  destruct ev as [dir|file doc|file doc|line]; unfold touches; try done.
  - intros H. rewrite fmap_cons. by right.
  - intros H. rewrite artifact_paths_cons. by do 2 right.
Qed.

Lemma includes_false_inv names x : includes names x = false → x ∉ names.
Proof. unfold includes. by rewrite bool_decide_eq_false. Qed.

Lemma includes_true_inv names x : includes names x = true → x ∈ names.
Proof. unfold includes. by rewrite bool_decide_eq_true. Qed.

(** Every way one turn of the loop can go: the name was seen; the bundle
    cannot be read; the first write is refused; the bundle has no [source];
    the second write is refused; or the unit is persisted and the loop goes
    on. *)
Lemma output_loop_cons_cases names paths target rest w r w' :
  output_loop path_resolve new_RedspotError env names paths (target :: rest) w
  = (r, w') →
  (name target ∈ names
   ∧ r = Thrown (new_RedspotError
                   (INK_DUPLICATE_NAME
                      (at_index paths (indexOf names (name target)))
                      (contract target)))
   ∧ w' = w)
  ∨ ((name target ∉ names)
     ∧ files w !! contract target = None
     ∧ r = Thrown (ReadJSONError (contract target)) ∧ w' = w)
  ∨ (∃ doc e,
        (name target ∉ names)
        ∧ files w !! contract target = Some doc
        ∧ io_error w (trace w ++ [ReadJSON (contract target) doc])
            (WriteJSON (contract_file path_resolve env target) doc) = Some e
        ∧ r = Thrown e
        ∧ w' = emit (ReadJSON (contract target) doc) w)
  ∨ (∃ doc,
        (name target ∉ names)
        ∧ files w !! contract target = Some doc
        ∧ ¬ has_source doc
        ∧ r = Thrown TypeError
        ∧ w' = written (contract_file path_resolve env target) doc
                 (emit (ReadJSON (contract target) doc) w))
  ∨ (∃ doc stripped e,
        (name target ∉ names)
        ∧ files w !! contract target = Some doc
        ∧ delete_source_wasm doc = Returned stripped
        ∧ io_error w ((trace w ++ [ReadJSON (contract target) doc])
                      ++ [WriteJSON (contract_file path_resolve env target) doc])
            (WriteJSON (json_file path_resolve env target) stripped) = Some e
        ∧ r = Thrown e
        ∧ w' = written (contract_file path_resolve env target) doc
                 (emit (ReadJSON (contract target) doc) w))
  ∨ (∃ doc stripped,
        (name target ∉ names)
        ∧ files w !! contract target = Some doc
        ∧ delete_source_wasm doc = Returned stripped
        ∧ output_loop path_resolve new_RedspotError env
            (names ++ [name target]) (paths ++ [contract target]) rest
            (after_unit path_resolve env target doc stripped w)
          = (r, w')).
Proof.
  intros Hrun. simpl in Hrun.
  destruct (includes names (name target)) eqn:Hinc.
  { apply includes_true_inv in Hinc. left. by injection Hrun as <- <-. }
  apply includes_false_inv in Hinc. right.
  unfold bind at 1 in Hrun. unfold readJSONSync in Hrun.
  destruct (files w !! contract target) as [doc|] eqn:Hdoc.
  2:{ left. by injection Hrun as <- <-. }
  right. unfold bind at 1 in Hrun. unfold writeJSONSync at 1 in Hrun.
  simpl in Hrun.
  destruct (io_error w (trace w ++ [ReadJSON (contract target) doc])
              (WriteJSON (contract_file path_resolve env target) doc))
    as [e|] eqn:Hw1.
  { left. exists doc, e. by injection Hrun as <- <-. }
  right. destruct (delete_source_wasm doc) as [stripped|e] eqn:Hstrip.
  2:{ left. exists doc. apply delete_source_wasm_thrown in Hstrip as [-> Hbad].
      by injection Hrun as <- <-. }
  right. unfold bind at 1 in Hrun. unfold writeJSONSync at 1 in Hrun.
  simpl in Hrun.
  destruct (io_error w ((trace w ++ [ReadJSON (contract target) doc])
                        ++ [WriteJSON (contract_file path_resolve env target) doc])
              (WriteJSON (json_file path_resolve env target) stripped))
    as [e|] eqn:Hw2.
  { left. exists doc, stripped, e. by injection Hrun as <- <-. }
  right. by exists doc, stripped.
Qed.

(** Whatever the loop does, it only appends to the history, the files are
    the initial ones updated by the writes of the appended part, and every
    appended effect is a read of a unit's bundle or a write to a unit's
    artifact path. *)
Lemma output_loop_footprint output : ∀ names paths w r w',
  output_loop path_resolve new_RedspotError env names paths output w = (r, w') →
  ∃ evs,
    trace w' = trace w ++ evs
    ∧ files w' = replay (files w) evs
    ∧ io_error w' = io_error w
    ∧ Forall (touches path_resolve env output) evs.
Proof.
  induction output as [|target rest IH]; intros names paths w r w' Hrun.
  - injection Hrun as <- <-. exists []. by rewrite app_nil_r.
  - apply output_loop_cons_cases in Hrun
      as [(_ & _ & ->)|[(_ & _ & _ & ->)|[(doc & e & _ & _ & _ & _ & ->)|
          [(doc & _ & _ & _ & _ & ->)|[(doc & stripped & e & _ & _ & _ & _ & _ & ->)|
          (doc & stripped & _ & _ & _ & Hrun)]]]]].
    + exists []. by rewrite app_nil_r.
    + exists []. by rewrite app_nil_r.
    + exists [ReadJSON (contract target) doc]. repeat split; [].
      apply Forall_singleton. unfold touches. rewrite fmap_cons. by left.
    + exists [ReadJSON (contract target) doc;
              WriteJSON (contract_file path_resolve env target) doc].
      split; [by simpl; rewrite <- app_assoc|]. repeat split; [].
      repeat apply Forall_cons_2; unfold touches; [|by left|done].
      rewrite fmap_cons. by left.
    + exists [ReadJSON (contract target) doc;
              WriteJSON (contract_file path_resolve env target) doc].
      split; [by simpl; rewrite <- app_assoc|]. repeat split; [].
      repeat apply Forall_cons_2; unfold touches; [|by left|done].
      rewrite fmap_cons. by left.
    + apply IH in Hrun as (evs & Htrace & Hfiles & Hio & Hall).
      exists (ReadJSON (contract target) doc
              :: WriteJSON (contract_file path_resolve env target) doc
              :: WriteJSON (json_file path_resolve env target) stripped
              :: evs).
      split; [by rewrite Htrace, trace_after_unit, <- app_assoc|].
      split; [done|]. split; [done|].
      repeat apply Forall_cons_2; unfold touches.
      * rewrite fmap_cons. by left.
      * by left.
      * right. by left.
      * eapply Forall_impl; [done|]. intros ev. apply touches_cons.
Qed.

(** The stage either skips everything (no sources), or fails to ensure the
    directory, or ensures it and runs the loop; the success message follows
    exactly when the loop returns. *)
Lemma output_stage_cases input output w r w' :
  TASK_COMPILE_INK_OUTPUT_action path_resolve chalk_cyan new_RedspotError
    input output env w
  = (r, w') →
  (sources input = [] ∧ r = Returned VUndefined ∧ w' = w)
  ∨ (sources input ≠ []
     ∧ ∃ e, io_error w (trace w) (EnsureDir (config_paths_artifacts env)) = Some e
            ∧ r = Thrown e ∧ w' = w)
  ∨ (sources input ≠ []
     ∧ ∃ evs,
         Forall (touches path_resolve env output) evs
         ∧ files w' = replay (files w) evs
         ∧ io_error w' = io_error w
         ∧ ((∃ e, r = Thrown e
                  ∧ output_loop path_resolve new_RedspotError env [] [] output
                      (emit (EnsureDir (config_paths_artifacts env)) w)
                    = (Thrown e, w')
                  ∧ trace w' = trace w ++ EnsureDir (config_paths_artifacts env) :: evs)
            ∨ (r = Returned VUndefined
               ∧ trace w'
                 = trace w ++ EnsureDir (config_paths_artifacts env) :: evs
                   ++ [ConsoleLog ""; (ConsoleLog (success_message chalk_cyan env))]))).
Proof.
  intros Hrun. destruct (decide (sources input = [])) as [Hsrc|Hsrc].
  { left. unfold TASK_COMPILE_INK_OUTPUT_action in Hrun. rewrite Hsrc in Hrun.
    simpl in Hrun. by injection Hrun as <- <-. }
  right.
  destruct (io_error w (trace w) (EnsureDir (config_paths_artifacts env)))
    as [e|] eqn:Hdir.
  { left. split; [done|]. exists e. split; [done|].
    unfold TASK_COMPILE_INK_OUTPUT_action in Hrun.
    destruct (decide (length (sources input) = 0)) as [Hlen|_].
    { by apply length_zero_iff_nil in Hlen. }
    unfold bind at 1 in Hrun. unfold ensureDirSync in Hrun. rewrite Hdir in Hrun.
    by injection Hrun as <- <-. }
  right. split; [done|]. rewrite output_stage_enters in Hrun by done.
  unfold bind at 1 in Hrun.
  destruct (output_loop path_resolve new_RedspotError env [] [] output
              (emit (EnsureDir (config_paths_artifacts env)) w))
    as [[[]|e] w1] eqn:Hloop.
  - apply output_loop_footprint in Hloop as (evs & Htrace & Hfiles & Hio & Hall).
    simpl in Htrace, Hfiles, Hio. exists evs. split; [done|].
    injection Hrun as <- <-. simpl. split; [done|]. split; [done|].
    right. split; [done|]. rewrite Htrace. by rewrite <- !app_assoc.
  - pose proof Hloop as Hfoot.
    apply output_loop_footprint in Hfoot as (evs & Htrace & Hfiles & Hio & Hall).
    simpl in Htrace, Hfiles, Hio. exists evs. split; [done|].
    injection Hrun as <- <-. split; [done|]. split; [done|]. left. exists e.
    split; [done|]. split; [done|]. rewrite Htrace. by rewrite <- app_assoc.
Qed.

(** X1. The output stage leaves every file alone whose path is not one of
    the two artifact paths of a unit of the compiler output, whether it
    returns or throws. *)
Theorem output_stage_touches_only_artifact_paths input output w p :
  p ∉ artifact_paths path_resolve env output →
  files (TASK_COMPILE_INK_OUTPUT_action path_resolve chalk_cyan new_RedspotError
           input output env w).2
    !! p
  = files w !! p.
Proof.
  intros Hp.
  destruct (TASK_COMPILE_INK_OUTPUT_action path_resolve chalk_cyan new_RedspotError
              input output env w)
    as [r w'] eqn:Hrun.
  simpl.
  apply output_stage_cases in Hrun
    as [(_ & _ & ->)|[(_ & e & _ & _ & ->)|(_ & evs & Hall & -> & _)]];
    [done..|].
  apply replay_frame. eapply Forall_impl; [done|].
  intros ev Hev doc ->. by apply Hp.
Qed.

(** X3. The success message is printed exactly when the stage gets through
    the loop: a stage that throws has printed nothing, and a stage that
    returns on non-empty sources has printed the empty line and the message
    as its last two effects and nothing before them. *)
Theorem output_stage_prints_only_on_success input output w r w' :
  TASK_COMPILE_INK_OUTPUT_action path_resolve chalk_cyan new_RedspotError
    input output env w
  = (r, w') →
  sources input ≠ [] →
  ∃ evs,
    (∀ line, ConsoleLog line ∉ evs)
    ∧ match r with
      | Thrown _ => trace w' = trace w ++ evs
      | Returned _ =>
          trace w' = trace w ++ evs
                     ++ [ConsoleLog ""; (ConsoleLog (success_message chalk_cyan env))]
      end.
Proof.
  intros Hrun Hsrc.
  apply output_stage_cases in Hrun
    as [(Hnil & _)|[(_ & e & _ & -> & ->)|(_ & evs & Hall & _ & _ & Hcase)]];
    [done| |].
  { exists []. split; [intros line H; by apply elem_of_nil in H|].
    by rewrite app_nil_r. }
  exists (EnsureDir (config_paths_artifacts env) :: evs). split.
  - intros line Hin. apply elem_of_cons in Hin as [[=]|Hin].
    rewrite Forall_forall in Hall. by apply Hall in Hin.
  - destruct Hcase as [(e & -> & _ & Htrace)|(-> & Htrace)]; done.
Qed.

(** The errors of the loop, with [seen] the records already persisted. *)
Lemma output_loop_errors rest : ∀ (seen : list InkOutput) w e w',
  output_loop path_resolve new_RedspotError env
    (name <$> seen) (contract <$> seen) rest w
  = (Thrown e, w') →
  e = TypeError
  ∨ (∃ t, t ∈ rest ∧ e = ReadJSONError (contract t))
  ∨ (∃ h file doc,
        file ∈ artifact_paths path_resolve env rest
        ∧ io_error w h (WriteJSON file doc) = Some e)
  ∨ (∃ l1 first l2 dup l3,
        seen ++ rest = l1 ++ first :: l2 ++ dup :: l3
        ∧ name first = name dup
        ∧ e = new_RedspotError
                (INK_DUPLICATE_NAME (Some (contract first)) (contract dup))).
Proof.
  induction rest as [|target rest IH]; intros seen w e w' Hrun; [done|].
  apply output_loop_cons_cases in Hrun
    as [(Hin & [= ->] & _)|[(_ & _ & [= ->] & _)|[(doc & e0 & _ & _ & Hw & [= ->] & _)|
        [(doc & _ & _ & _ & [= ->] & _)|[(doc & stripped & e0 & _ & _ & _ & Hw & [= ->] & _)|
        (doc & stripped & _ & _ & _ & Hrun)]]]]].
  - destruct (path_of_first_bearer seen (name target) Hin)
      as (b1 & first & b2 & -> & Hfirst & _ & ->).
    do 3 right. exists b1, first, b2, target, rest.
    split; [by rewrite <- app_assoc|]. by split.
  - right. left. exists target. split; [by left|done].
  - do 2 right. left. eexists _, _, doc. split; [|done].
    rewrite artifact_paths_cons. by left.
  - by left.
  - do 2 right. left. eexists _, _, stripped. split; [|done].
    rewrite artifact_paths_cons. right. by left.
  - replace ((name <$> seen) ++ [name target])
      with (name <$> (seen ++ [target])) in Hrun by by rewrite fmap_app.
    replace ((contract <$> seen) ++ [contract target])
      with (contract <$> (seen ++ [target])) in Hrun by by rewrite fmap_app.
    apply IH in Hrun
      as [->|[(t & Ht & ->)|[(h & file & d & Hfile & Hio)|
          (l1 & first & l2 & dup & l3 & Heq & Hn & ->)]]].
    + by left.
    + right. left. exists t. split; [by right|done].
    + do 2 right. left. exists h, file, d. split; [|done].
      rewrite artifact_paths_cons. by do 2 right.
    + do 3 right. exists l1, first, l2, dup, l3.
      split; [by rewrite <- Heq, <- app_assoc|]. by split.
Qed.

(** X2. The output stage has four ways to fail and no other: a [TypeError]
    from [delete abiJSON.source.wasm]; the failure to read the bundle of one
    of the units; an error of the file system, raised when ensuring the
    artifact directory or when writing one of the units' artifact files; or
    the [throw new RedspotError(INK_DUPLICATE_NAME, ...)], which is reached
    only for two records of the output that do share their name, with the
    earlier one's path as [path1] (never [undefined]) and the later one's as
    [path2]. *)
Theorem output_stage_failure_modes input output w e w' :
  TASK_COMPILE_INK_OUTPUT_action path_resolve chalk_cyan new_RedspotError
    input output env w
  = (Thrown e, w') →
  e = TypeError
  ∨ (∃ t, t ∈ output ∧ e = ReadJSONError (contract t))
  ∨ (∃ h ev,
        (ev = EnsureDir (config_paths_artifacts env)
         ∨ ∃ file doc, ev = WriteJSON file doc
                       ∧ file ∈ artifact_paths path_resolve env output)
        ∧ io_error w h ev = Some e)
  ∨ (∃ l1 first l2 dup l3,
        output = l1 ++ first :: l2 ++ dup :: l3
        ∧ name first = name dup
        ∧ e = new_RedspotError
                (INK_DUPLICATE_NAME (Some (contract first)) (contract dup))).
Proof.
  intros Hrun.
  apply output_stage_cases in Hrun
    as [(_ & [=] & _)|[(_ & e0 & Hdir & [= ->] & _)|(_ & evs & _ & _ & _ & Hcase)]].
  { do 2 right. left. exists (trace w), (EnsureDir (config_paths_artifacts env)).
    split; [by left|done]. }
  destruct Hcase as [(e' & [= <-] & Hloop & _)|([=] & _)].
  apply (output_loop_errors output []) in Hloop
    as [->|[Hread|[(h & file & doc & Hfile & Hio)|Hdup]]].
  - by left.
  - right. by left.
  - do 2 right. left. exists h, (WriteJSON file doc). split; [|done].
    right. by exists file, doc.
  - by do 3 right.
Qed.

(** ** Bundles that cannot be persisted *)




(** ** The files after a successful run *)

Lemma artifact_path_of_unit t output :
  t ∈ output →
  contract_file path_resolve env t ∈ artifact_paths path_resolve env output
  ∧ json_file path_resolve env t ∈ artifact_paths path_resolve env output.
Proof.
  intros Ht. unfold artifact_paths.
  split; apply list_elem_of_bind; exists t; (split; [|done]).
  - by left.
  - right. by left.
Qed.

(** The loop over records whose artifact paths are pairwise distinct and
    whose bundles lie outside those paths: each record ends with its bundle
    under [<name>.contract] and the stripped bundle under [<name>.json], and
    no other path changes. *)
Lemma output_loop_final before : ∀ names paths w,
  (∀ t, t ∈ before → name t ∉ names) →
  (∀ t, t ∈ before → readable w t) →
  (∀ h file doc, file ∈ artifact_paths path_resolve env before →
                 io_error w h (WriteJSON file doc) = None) →
  NoDup (artifact_paths path_resolve env before) →
  (∀ t, t ∈ before → contract t ∉ artifact_paths path_resolve env before) →
  ∃ w',
    (∀ rest,
        output_loop path_resolve new_RedspotError env names paths (before ++ rest) w
        = output_loop path_resolve new_RedspotError env
            (names ++ (name <$> before)) (paths ++ (contract <$> before)) rest w')
    ∧ io_error w' = io_error w
    ∧ (∀ p, p ∉ artifact_paths path_resolve env before →
            files w' !! p = files w !! p)
    ∧ ∀ t, t ∈ before →
        ∃ doc stripped,
          files w !! contract t = Some doc
          ∧ delete_source_wasm doc = Returned stripped
          ∧ files w' !! contract_file path_resolve env t = Some doc
          ∧ files w' !! json_file path_resolve env t = Some stripped.
Proof.
  induction before as [|target before IH];
    intros names paths w Hfresh Hread Hacc Hnd Hsrc.
  - exists w. split; [intros rest; simpl; by rewrite !app_nil_r|].
    split; [done|]. split; [done|]. intros t Ht. by apply elem_of_nil in Ht.
  - rewrite artifact_paths_cons in Hnd.
    apply NoDup_cons in Hnd as [Hcf Hnd]. apply NoDup_cons in Hnd as [Hjf Hnd].
    apply not_elem_of_cons in Hcf as [Hcfjf Hcf].
    destruct (Hread target) as (doc & Hdoc & Hhas); [by left|].
    destruct (delete_source_wasm_returns doc Hhas)
      as (stripped & Hstrip & _ & Hhas').
    destruct (IH (names ++ [name target]) (paths ++ [contract target])
                (after_unit path_resolve env target doc stripped w))
      as (w' & Hloop & Hio & Hframe & Hunits).
    + intros t Ht Hin. apply elem_of_app in Hin as [Hin|Hin].
      * by apply (Hfresh t); [right|].
      * apply list_elem_of_singleton in Hin. apply Hcf.
        destruct (artifact_path_of_unit t before Ht) as [Hin' _].
        unfold contract_file in *. by rewrite <- Hin.
    + intros t Ht. apply readable_after_unit; [done..|]. apply Hread. by right.
    + intros h file d Hfile. simpl. apply Hacc.
      rewrite artifact_paths_cons. by do 2 right.
    + done.
    + intros t Ht Hin. apply (Hsrc t); [by right|].
      rewrite artifact_paths_cons. by do 2 right.
    + exists w'. split; [|split; [done|split]].
      * intros rest. rewrite <- app_comm_cons.
        rewrite (output_loop_step path_resolve new_RedspotError env names paths
                   target (before ++ rest) w doc stripped).
        -- rewrite Hloop. rewrite !fmap_cons. by rewrite <- !app_assoc.
        -- apply Hfresh. by left.
        -- done.
        -- done.
        -- apply Hacc. rewrite artifact_paths_cons. by left.
        -- apply Hacc. rewrite artifact_paths_cons. right. by left.
      * intros p Hp. rewrite artifact_paths_cons in Hp.
        apply not_elem_of_cons in Hp as [Hp1 Hp].
        apply not_elem_of_cons in Hp as [Hp2 Hp].
        rewrite Hframe by done. simpl. by rewrite !lookup_insert_ne.
      * intros t Ht. apply elem_of_cons in Ht as [->|Ht].
        -- exists doc, stripped. split; [done|]. split; [done|].
           rewrite !Hframe by done. simpl.
           rewrite lookup_insert_eq. rewrite lookup_insert_ne by done.
           by rewrite lookup_insert_eq.
        -- destruct (Hunits t Ht) as (d & s' & Hd & Hs & Hc & Hj).
           exists d, s'. split; [|done]. simpl in Hd.
           assert (Hout : contract t ∉ artifact_paths path_resolve env
                                         (target :: before)).
           { apply Hsrc. by right. }
           rewrite artifact_paths_cons in Hout.
           apply not_elem_of_cons in Hout as [H1 Hout].
           apply not_elem_of_cons in Hout as [H2 _].
           by rewrite !lookup_insert_ne in Hd.
Qed.

Lemma output_stage_final input output w :
  sources input ≠ [] →
  (∀ t, t ∈ output → readable w t) →
  accepts path_resolve env w output →
  NoDup (artifact_paths path_resolve env output) →
  (∀ t, t ∈ output → contract t ∉ artifact_paths path_resolve env output) →
  ∃ w',
    TASK_COMPILE_INK_OUTPUT_action path_resolve chalk_cyan new_RedspotError
      input output env w
    = (Returned VUndefined, w')
    ∧ io_error w' = io_error w
    ∧ (∀ p, p ∉ artifact_paths path_resolve env output →
            files w' !! p = files w !! p)
    ∧ ∀ t, t ∈ output →
        ∃ doc stripped,
          files w !! contract t = Some doc
          ∧ delete_source_wasm doc = Returned stripped
          ∧ files w' !! contract_file path_resolve env t = Some doc
          ∧ files w' !! json_file path_resolve env t = Some stripped.
Proof.
  intros Hsrc Hread Hacc Hnd Hout.
  destruct (output_loop_final output [] []
              (emit (EnsureDir (config_paths_artifacts env)) w))
    as (w1 & Hloop & Hio & Hframe & Hunits); [|done| |done|done|].
  { intros t _. apply not_elem_of_nil. }
  { intros h file doc Hfile. simpl. by apply (Hacc h). }
  specialize (Hloop []). rewrite app_nil_r in Hloop. simpl in Hloop.
  eexists. split; [|split; [|split]].
  - rewrite output_stage_enters; [|done|apply (Hacc (trace w))].
    unfold bind at 1. rewrite Hloop. unfold ret at 1. reflexivity.
  - done.
  - intros p Hp. simpl. by apply Hframe.
  - intros t Ht. simpl. by apply Hunits.
Qed.

(** X6. On an output whose artifact paths are pairwise distinct and whose
    bundles are readable and lie outside those paths, when the artifact
    directory can be ensured and the artifact files written, the stage
    returns and the artifact directory can be read back: [<name>.contract]
    holds the unit's bundle, [<name>.json] holds that bundle without
    [source.wasm], and the bundle itself is still where the compiler put
    it. *)
Theorem output_stage_artifacts_read_back input output w :
  sources input ≠ [] →
  (∀ t, t ∈ output → readable w t) →
  accepts path_resolve env w output →
  NoDup (artifact_paths path_resolve env output) →
  (∀ t, t ∈ output → contract t ∉ artifact_paths path_resolve env output) →
  ∃ w',
    TASK_COMPILE_INK_OUTPUT_action path_resolve chalk_cyan new_RedspotError
      input output env w
    = (Returned VUndefined, w')
    ∧ ∀ t, t ∈ output →
        ∃ doc stripped,
          files w !! contract t = Some doc
          ∧ without_wasm doc stripped
          ∧ files w' !! contract t = Some doc
          ∧ files w' !! contract_file path_resolve env t = Some doc
          ∧ files w' !! json_file path_resolve env t = Some stripped.
Proof.
  intros Hsrc Hread Hacc Hnd Hout.
  destruct (output_stage_final input output w)
    as (w' & Hrun & _ & Hframe & Hunits); [done..|].
  exists w'. split; [done|]. intros t Ht.
  destruct (Hunits t Ht) as (doc & stripped & Hdoc & Hstrip & Hc & Hj).
  exists doc, stripped. split; [done|]. split.
  - destruct (Hread t Ht) as (doc' & Hdoc' & Hhas).
    assert (doc' = doc) as -> by congruence.
    destruct (delete_source_wasm_returns doc Hhas) as (s' & Hs' & Hw & _).
    by assert (s' = stripped) as -> by congruence.
  - split; [|done]. rewrite Hframe; [done|]. by apply Hout.
Qed.

(** X7. Under the same conditions the stage is idempotent on the file
    system: running it a second time on the same compiler output returns
    again and leaves every file as the first run left it. *)
Theorem output_stage_idempotent input output w :
  sources input ≠ [] →
  (∀ t, t ∈ output → readable w t) →
  accepts path_resolve env w output →
  NoDup (artifact_paths path_resolve env output) →
  (∀ t, t ∈ output → contract t ∉ artifact_paths path_resolve env output) →
  ∃ w1 w2,
    TASK_COMPILE_INK_OUTPUT_action path_resolve chalk_cyan new_RedspotError
      input output env w
    = (Returned VUndefined, w1)
    ∧ TASK_COMPILE_INK_OUTPUT_action path_resolve chalk_cyan new_RedspotError
        input output env w1
      = (Returned VUndefined, w2)
    ∧ files w2 = files w1.
Proof.
  intros Hsrc Hread Hacc Hnd Hout.
  destruct (output_stage_final input output w)
    as (w1 & Hrun1 & Hio1 & Hframe1 & Hunits1); [done..|].
  assert (Hread1 : ∀ t, t ∈ output → readable w1 t).
  { intros t Ht. destruct (Hread t Ht) as (doc & Hdoc & Hhas).
    exists doc. split; [|done]. rewrite Hframe1; [done|]. by apply Hout. }
  assert (Hacc1 : accepts path_resolve env w1 output).
  { intros h. rewrite Hio1. apply Hacc. }
  destruct (output_stage_final input output w1)
    as (w2 & Hrun2 & _ & Hframe2 & Hunits2); [done..|].
  exists w1, w2. split; [done|]. split; [done|].
  apply map_eq. intros p.
  destruct (decide (p ∈ artifact_paths path_resolve env output)) as [Hp|Hp];
    [|by apply Hframe2].
  unfold artifact_paths in Hp. apply list_elem_of_bind in Hp as (t & Hp & Ht).
  destruct (Hunits1 t Ht) as (doc & stripped & Hdoc & Hstrip & Hc1 & Hj1).
  destruct (Hunits2 t Ht) as (doc2 & stripped2 & Hdoc2 & Hstrip2 & Hc2 & Hj2).
  rewrite Hframe1 in Hdoc2 by by apply Hout.
  assert (doc2 = doc) as -> by congruence.
  assert (stripped2 = stripped) as -> by congruence.
  apply elem_of_cons in Hp as [->|Hp]; [congruence|].
  apply list_elem_of_singleton in Hp as ->. congruence.
Qed.

End Loop.

(** ** Stripping [source.wasm] *)

Lemma set_prop_set_prop k v v' props :
  set_prop k v (set_prop k v' props) = set_prop k v props.
Proof.
  induction props as [|[k0 v0] rest IH]; simpl.
  - by rewrite decide_True.
  - destruct (decide (k0 = k)) as [->|Hne]; simpl.
    + by rewrite decide_True.
    + rewrite decide_False by done. by rewrite IH.
Qed.

Lemma delete_prop_delete_prop k props :
  delete_prop k (delete_prop k props) = delete_prop k props.
Proof.
  unfold delete_prop. induction props as [|[k0 v0] rest IH]; [done|].
  destruct (decide (k0 = k)) as [->|Hne].
  - rewrite filter_cons_False; [done|]. simpl. by intros H.
  - rewrite filter_cons_True by done. rewrite filter_cons_True by done.
    by rewrite IH.
Qed.

(** X9. [delete abiJSON.source.wasm] goes through exactly on the documents
    that have a [source] member and throws a [TypeError] on all others; when
    it goes through, the result is the document with only [source.wasm]
    removed, and stripping it once more changes nothing. *)
Theorem strip_source_wasm_characterised doc :
  ((∃ stripped, delete_source_wasm doc = Returned stripped) ↔ has_source doc)
  ∧ (∀ e, delete_source_wasm doc = Thrown e → e = TypeError)
  ∧ (∀ stripped,
        delete_source_wasm doc = Returned stripped →
        without_wasm doc stripped
        ∧ delete_source_wasm stripped = Returned stripped).
Proof.
  split; [|split].
  - split.
    + intros [stripped Hs]. by apply delete_source_wasm_returned_inv in Hs.
    + intros Hhas. destruct (delete_source_wasm_returns doc Hhas) as (s' & Hs' & _).
      by exists s'.
  - intros e He. by apply delete_source_wasm_thrown in He as [-> _].
  - intros stripped Hs.
    pose proof (delete_source_wasm_returned_inv doc stripped Hs) as Hhas.
    destruct (delete_source_wasm_returns doc Hhas) as (s' & Hs' & Hw & _).
    assert (s' = stripped) as -> by congruence. split; [done|].
    destruct doc as [| | | | | |props]; simpl in *; try done.
    destruct (get_prop "source" props) as [| | | | | |src] eqn:Hsrc;
      try done; injection Hs as <-; simpl; try by rewrite Hsrc.
    rewrite get_prop_set_prop_eq.
    by rewrite delete_prop_delete_prop, set_prop_set_prop.
Qed.

(** ** The invoke-compiler stage *)

(** X10. Whatever the invoke-compiler stage yields comes from the compiler:
    it returns [undefined] exactly on empty sources, any other result is
    the compiler's own result for [(input, redspotArguments.verbose)], and
    it throws only what the compiler throws, in the compiler's final
    state. *)
Theorem exec_stage_reflects_compiler
    (compile : InkInput → bool → Promise World (list InkOutput))
    (input : InkInput) (env : StageEnv) (w w' : World)
    (r : outcome (option (list InkOutput))) :
  TASK_COMPILE_INK_EXEC_action compile input env w = (r, w') →
  match r with
  | Returned None => sources input = [] ∧ w' = w
  | Returned (Some output) =>
      sources input ≠ []
      ∧ compile input (verbose (redspotArguments env)) w = (Returned output, w')
  | Thrown e =>
      sources input ≠ []
      ∧ compile input (verbose (redspotArguments env)) w = (Thrown e, w')
  end.
Proof.
  unfold TASK_COMPILE_INK_EXEC_action.
  destruct (decide (length (sources input) = 0)) as [Hlen|Hlen].
  - intros [= <- <-]. by apply length_zero_iff_nil in Hlen.
  - assert (Hsrc : sources input ≠ []) by (intros H; by rewrite H in Hlen).
    unfold bind.
    destruct (compile input (verbose (redspotArguments env)) w) as [[out|e] w1];
      intros [= <- <-]; by split.
Qed.

(** ** The top-level task *)

Section TopLevelFailures.

Context {W : Type}.
Variables PRE INPUT EXEC OUTPUT : string.
Variable impl : RunTaskFunction W.

(** X8. A stage that throws ends the top-level task: the task throws the
    same error in the state the failing stage left, and none of the later
    stages is called. *)
Theorem compile_stops_at_first_failed_stage (sourcePattern : value) (w : W) :
  let task := TASK_COMPILE_INK_action PRE INPUT EXEC OUTPUT sourcePattern
                (recording impl) ([], w) in
  let c1 := (PRE, VUndefined) in
  let c2 := (INPUT, VObj [("sourcePattern", sourcePattern)]) in
  (∀ e w1,
      impl PRE VUndefined w = (Thrown e, w1) →
      task = (Thrown e, ([c1], w1)))
  ∧ (∀ r0 w1 e w2,
      impl PRE VUndefined w = (Returned r0, w1) →
      impl INPUT c2.2 w1 = (Thrown e, w2) →
      task = (Thrown e, ([c1; c2], w2)))
  ∧ (∀ r0 w1 input w2 e w3,
      impl PRE VUndefined w = (Returned r0, w1) →
      impl INPUT c2.2 w1 = (Returned input, w2) →
      impl EXEC (VObj [("input", input)]) w2 = (Thrown e, w3) →
      task = (Thrown e, ([c1; c2; (EXEC, VObj [("input", input)])], w3)))
  ∧ (∀ r0 w1 input w2 output w3 e w4,
      impl PRE VUndefined w = (Returned r0, w1) →
      impl INPUT c2.2 w1 = (Returned input, w2) →
      impl EXEC (VObj [("input", input)]) w2 = (Returned output, w3) →
      impl OUTPUT (VObj [("input", input); ("output", output)]) w3
      = (Thrown e, w4) →
      task = (Thrown e,
              ([c1; c2; (EXEC, VObj [("input", input)]);
                (OUTPUT, VObj [("input", input); ("output", output)])], w4))).
Proof.
  intros task c1 c2. unfold task, c1, c2, TASK_COMPILE_INK_action. simpl.
  split; [|split; [|split]].
  - intros e w1 H0.
    by rewrite (bind_thrown _ _ _ _ _ (recording_returned impl _ _ _ _ _ _ H0)).
  - intros r0 w1 e w2 H0 H1.
    rewrite (bind_returned _ _ _ _ _ (recording_returned impl _ _ _ _ _ _ H0)).
    by rewrite (bind_thrown _ _ _ _ _ (recording_returned impl _ _ _ _ _ _ H1)).
  - intros r0 w1 input w2 e w3 H0 H1 H2.
    rewrite (bind_returned _ _ _ _ _ (recording_returned impl _ _ _ _ _ _ H0)).
    rewrite (bind_returned _ _ _ _ _ (recording_returned impl _ _ _ _ _ _ H1)).
    by rewrite (bind_thrown _ _ _ _ _ (recording_returned impl _ _ _ _ _ _ H2)).
  - intros r0 w1 input w2 output w3 e w4 H0 H1 H2 H3.
    rewrite (bind_returned _ _ _ _ _ (recording_returned impl _ _ _ _ _ _ H0)).
    rewrite (bind_returned _ _ _ _ _ (recording_returned impl _ _ _ _ _ _ H1)).
    rewrite (bind_returned _ _ _ _ _ (recording_returned impl _ _ _ _ _ _ H2)).
    by rewrite (bind_thrown _ _ _ _ _ (recording_returned impl _ _ _ _ _ _ H3)).
Qed.

End TopLevelFailures.

(** ** Concrete runs *)

Lemma output_stage_touches_only_artifact_paths_witness :
  files (TASK_COMPILE_INK_OUTPUT_action sample_resolve id id sample_input
           [unit_a; unit_a_again] sample_env sample_world_two).2
    !! "target/ink/a.contract"
  = files sample_world_two !! "target/ink/a.contract".
Proof.
  apply (output_stage_touches_only_artifact_paths sample_resolve id id sample_env
           sample_input [unit_a; unit_a_again] sample_world_two
           "target/ink/a.contract").
  by_computation.
Defined.

Lemma output_stage_failure_modes_witness :
  let output := [unit_a] in
  refused = TypeError
  ∨ (∃ t, t ∈ output ∧ refused = ReadJSONError (contract t))
  ∨ (∃ h ev,
        (ev = EnsureDir (config_paths_artifacts sample_env)
         ∨ ∃ file doc, ev = WriteJSON file doc
                       ∧ file ∈ artifact_paths sample_resolve sample_env output)
        ∧ io_error sample_world_readonly h ev = Some refused)
  ∨ (∃ l1 first l2 dup l3,
        output = l1 ++ first :: l2 ++ dup :: l3
        ∧ name first = name dup
        ∧ refused = id (INK_DUPLICATE_NAME (Some (contract first)) (contract dup))).
Proof.
  intros output.
  eapply (output_stage_failure_modes sample_resolve id id sample_env sample_input
            output sample_world_readonly refused).
  reflexivity.
Defined.

Lemma output_stage_prints_only_on_success_witness :
  let run := TASK_COMPILE_INK_OUTPUT_action sample_resolve id id sample_input
               [unit_a; unit_a_again] sample_env sample_world_two in
  ∃ evs,
    (∀ line, ConsoleLog line ∉ evs)
    ∧ match run.1 with
      | Thrown _ => trace run.2 = trace sample_world_two ++ evs
      | Returned _ =>
          trace run.2 = trace sample_world_two ++ evs
                        ++ [ConsoleLog ""; (ConsoleLog (success_message id sample_env))]
      end.
Proof.
  intros run.
  apply (output_stage_prints_only_on_success sample_resolve id id sample_env
           sample_input [unit_a; unit_a_again] sample_world_two run.1 run.2).
  - apply surjective_pairing.
  - apply sample_sources_nonempty.
Defined.



Lemma sample_bundle_outside_artifacts t :
  t ∈ [unit_a] → contract t ∉ artifact_paths sample_resolve sample_env [unit_a].
Proof. intros Ht. apply list_elem_of_singleton in Ht as ->. by_computation. Qed.

Lemma sample_artifact_paths_distinct :
  NoDup (artifact_paths sample_resolve sample_env [unit_a]).
Proof. by_computation. Qed.

Lemma output_stage_artifacts_read_back_witness :
  ∃ w',
    TASK_COMPILE_INK_OUTPUT_action sample_resolve id id sample_input [unit_a]
      sample_env sample_world = (Returned VUndefined, w')
    ∧ ∀ t, t ∈ [unit_a] →
        ∃ doc stripped,
          files sample_world !! contract t = Some doc
          ∧ without_wasm doc stripped
          ∧ files w' !! contract t = Some doc
          ∧ files w' !! contract_file sample_resolve sample_env t = Some doc
          ∧ files w' !! json_file sample_resolve sample_env t = Some stripped.
Proof.
  apply (output_stage_artifacts_read_back sample_resolve id id sample_env
           sample_input [unit_a] sample_world).
  - apply sample_sources_nonempty.
  - apply sample_world_readable.
  - apply sample_world_accepts.
  - apply sample_artifact_paths_distinct.
  - apply sample_bundle_outside_artifacts.
Defined.

Lemma output_stage_idempotent_witness :
  ∃ w1 w2,
    TASK_COMPILE_INK_OUTPUT_action sample_resolve id id sample_input [unit_a]
      sample_env sample_world = (Returned VUndefined, w1)
    ∧ TASK_COMPILE_INK_OUTPUT_action sample_resolve id id sample_input [unit_a]
        sample_env w1 = (Returned VUndefined, w2)
    ∧ files w2 = files w1.
Proof.
  apply (output_stage_idempotent sample_resolve id id sample_env sample_input
           [unit_a] sample_world).
  - apply sample_sources_nonempty.
  - apply sample_world_readable.
  - apply sample_world_accepts.
  - apply sample_artifact_paths_distinct.
  - apply sample_bundle_outside_artifacts.
Defined.

Lemma exec_stage_reflects_compiler_witness :
  sources sample_input ≠ []
  ∧ sample_compile sample_input (verbose (redspotArguments sample_env))
      sample_world
    = (Returned [unit_a], sample_world).
Proof.
  apply (exec_stage_reflects_compiler sample_compile sample_input sample_env
           sample_world sample_world (Returned (Some [unit_a]))).
  reflexivity.
Defined.

Lemma compile_stops_at_first_failed_stage_witness :
  TASK_COMPILE_INK_action "pre" "input" "exec" "output" (VArr [])
    (recording (W := nat)
       (λ task _ n, if decide (task = "exec")
                    then (Thrown (CollaboratorError (VStr task)), Datatypes.S n)
                    else (Returned (VStr task), Datatypes.S n)))
    ([], 0)
  = (Thrown (CollaboratorError (VStr "exec")),
     ([("pre", VUndefined);
       ("input", VObj [("sourcePattern", VArr [])]);
       ("exec", VObj [("input", VStr "input")])], 3)).
Proof.
  destruct (compile_stops_at_first_failed_stage "pre" "input" "exec" "output"
              (λ task _ n, if decide (task = "exec")
                           then (Thrown (CollaboratorError (VStr task)), Datatypes.S n)
                           else (Returned (VStr task), Datatypes.S n))
              (VArr []) 0) as (_ & _ & Hexec & _).
  apply (Hexec (VStr "pre") 1 (VStr "input") 2); reflexivity.
Defined.

End CompileInkMore.
